(** * Binary glTF container unpacking: a model of [glTFFileLoader.ts]

  The development embeds the container demultiplexer of the glTF file
  loader ([_unpackBinaryAsync], [_unpackBinaryV1Async],
  [_unpackBinaryV2Async]) and the version parser ([_parseVersion]) and
  proves properties of them.

  Conventions.
  - A JavaScript [number] is a [Z]; the values that occur (32-bit fields,
    byte offsets and their sums) are integers far below 2^53, where
    JavaScript arithmetic is exact.
  - A promise chain is run sequentially: a computation takes the reader
    and returns an [outcome] together with the reader it leaves behind.
    [Rejected] stands for a thrown [Error] or a rejected promise.
  - The reader is mutated in place by the source; here it is threaded
    through explicitly. *)

From Stdlib Require Import ZArith List Bool Lia.
From Stdlib Require Import Strings.String Strings.Ascii Strings.Byte.
Import ListNotations.
Local Open Scope Z_scope.

Set Implicit Arguments.

(** ** Bytes and little-endian 32-bit fields *)

Module Bytes.

Definition val (b : byte) : Z := Z.of_N (Byte.to_N b).

(** The byte with a given value below 256 (used to lay containers out). *)
Definition of_val (n : Z) : byte :=
  match Byte.of_N (Z.to_N n) with
  | Some b => b
  | None => x00
  end.

(** [slice l off n]: the [n] bytes of [l] from position [off]. *)
Definition slice (l : list byte) (off n : Z) : list byte :=
  firstn (Z.to_nat n) (skipn (Z.to_nat off) l).

(** [DataView.getUint32(_, true)]: four bytes, least significant first. *)
Definition getUint32 (bs : list byte) : Z :=
  match bs with
  | [b0; b1; b2; b3] =>
      val b0 + 256 * val b1 + 65536 * val b2 + 16777216 * val b3
  | _ => 0
  end.

(** The little-endian layout of a 32-bit field. *)
Definition le32 (n : Z) : list byte :=
  [ of_val (n mod 256); of_val ((n / 256) mod 256);
    of_val ((n / 65536) mod 256); of_val ((n / 16777216) mod 256) ].

Definition len (l : list byte) : Z := Z.of_nat (List.length l).

End Bytes.
Import Bytes.

(** ** [IDataBuffer]

  The interface imported from [./dataReader]: a [readAsync] capability
  and a [byteLength].  [readAsync] returns [None] when its promise is
  rejected (or the call throws). *)

Record IDataBuffer : Type := {
  readAsync : Z -> Z -> option (list byte);
  byteLength : Z
}.

(** The in-memory buffer built by [requestFile] and [readFile]:
  [readAsync: (byteOffset, byteLength) =>
     Promise.resolve(new Uint8Array(arrayBuffer, byteOffset, byteLength))],
  [byteLength: arrayBuffer.byteLength].  The [Uint8Array] constructor
  throws a [RangeError] when the range leaves the array buffer. *)
Definition arrayBufferSource (arrayBuffer : list byte) : IDataBuffer :=
  {| readAsync := fun byteOffset byteLength =>
       if (0 <=? byteOffset) && (0 <=? byteLength)
          && (byteOffset + byteLength <=? len arrayBuffer)
       then Some (slice arrayBuffer byteOffset byteLength)
       else None;
     byteLength := len arrayBuffer |}.

(** The view handed back as [bin]:
  [{ readAsync: (byteOffset, byteLength) =>
       dataReader.buffer.readAsync(startByteOffset + byteOffset, byteLength),
     byteLength: ... }]. *)
Definition binView (buffer : IDataBuffer) (startByteOffset length : Z) : IDataBuffer :=
  {| readAsync := fun byteOffset byteLength =>
       readAsync buffer (startByteOffset + byteOffset) byteLength;
     byteLength := length |}.

(** ** Errors and outcomes *)

Inductive Error : Type :=
| UnexpectedMagic (magic : Z)              (* "Unexpected magic: ..." *)
| LengthMismatch (length actual : Z)       (* "Length in header does not match actual data length" *)
| UnsupportedVersion (version : Z)         (* "Unsupported version: ..." *)
| UnexpectedContentFormat (format : Z)     (* "Unexpected content format: ..." *)
| FirstChunkNotJSON                        (* "First chunk format is not JSON" *)
| UnexpectedJSONChunk                      (* "Unexpected JSON chunk" *)
| JSONSyntaxError                          (* thrown by JSON.parse *)
| SourceReadError                          (* the buffer's readAsync failed *)
| WindowFault.                             (* field read outside the loaded window *)

Inductive outcome (A : Type) : Type :=
| Resolved (a : A)
| Rejected (e : Error)
| Unsettled.                               (* the chain did not settle within the fuel *)

Arguments Resolved {A} a.
Arguments Rejected {A} e.
Arguments Unsettled {A}.

(** ** [DataReader] *)

Module DataReader.

(** Modelled from the spec: the class [DataReader] of [./dataReader],
    which is not part of the sources at hand.  It follows the streaming
    reader of the specification: one window [[0, loaded)] over the buffer
    that only grows, and a cursor [byteOffset].  [requests] is a ghost
    log of the [readAsync] calls issued to the buffer (offset, length),
    oldest first. *)
Record t : Type := {
  buffer : IDataBuffer;
  byteOffset : Z;
  window : list byte;
  requests : list (Z * Z)
}.

(** [new DataReader(buffer)] *)
Definition make (b : IDataBuffer) : t :=
  {| buffer := b; byteOffset := 0; window := []; requests := [] |}.

Definition loaded (r : t) : Z := len (window r).

Definition M (A : Type) : Type := t -> outcome A * t.

Definition ret {A} (a : A) : M A := fun r => (Resolved a, r).

Definition bind {A B} (m : M A) (k : A -> M B) : M B :=
  fun r =>
    match m r with
    | (Resolved a, r') => k a r'
    | (Rejected e, r') => (Rejected e, r')
    | (Unsettled, r') => (Unsettled, r')
    end.

Definition throw {A} (e : Error) : M A := fun r => (Rejected e, r).

Definition unsettled {A} : M A := fun r => (Unsettled, r).

(** Read-only observers. *)
Definition getByteOffset : M Z := fun r => (Resolved (byteOffset r), r).
Definition getBuffer : M IDataBuffer := fun r => (Resolved (buffer r), r).

Definition advance (n : Z) (r : t) : t :=
  {| buffer := buffer r; byteOffset := byteOffset r + n;
     window := window r; requests := requests r |}.

(** Modelled from the spec: [loadAsync(byteLength)] makes
    [[byteOffset, byteOffset + byteLength)] part of the window by one
    [readAsync] for the missing suffix [[loaded, byteOffset + byteLength)],
    whose result is appended; nothing is requested when nothing is
    missing; a failed read rejects with [SourceReadError]. *)
Definition loadAsync (byteLength : Z) : M unit := fun r =>
  let upto := byteOffset r + byteLength in
  if upto <=? loaded r then (Resolved tt, r)
  else
    let req := (loaded r, upto - loaded r) in
    match readAsync (buffer r) (fst req) (snd req) with
    | Some data =>
        (Resolved tt,
         {| buffer := buffer r; byteOffset := byteOffset r;
            window := window r ++ data;
            requests := requests r ++ [req] |})
    | None =>
        (Rejected SourceReadError,
         {| buffer := buffer r; byteOffset := byteOffset r;
            window := window r;
            requests := requests r ++ [req] |})
    end.

(** [inWindow r n]: the next [n] bytes at the cursor are loaded. *)
Definition inWindow (r : t) (n : Z) : bool :=
  (0 <=? byteOffset r) && (0 <=? n) && (byteOffset r + n <=? loaded r).

(** Modelled from the spec: [readUint32()] interprets four loaded bytes
    at the cursor, little-endian, and advances the cursor; a read outside
    the window is a fault. *)
Definition readUint32 : M Z := fun r =>
  if inWindow r 4
  then (Resolved (getUint32 (slice (window r) (byteOffset r) 4)), advance 4 r)
  else (Rejected WindowFault, r).

(** Modelled from the spec: [readString(byteLength)] decodes
    [byteLength] loaded bytes at the cursor, one character a byte, and
    advances the cursor; a read outside the window is a fault. *)
Definition readString (byteLength : Z) : M string := fun r =>
  if inWindow r byteLength
  then (Resolved (string_of_list_byte (slice (window r) (byteOffset r) byteLength)),
        advance byteLength r)
  else (Rejected WindowFault, r).

(** Modelled from the spec: [skipBytes(byteLength)] moves the cursor and
    interprets no byte.  The unpacker skips chunk payloads it never
    loads (the [bin] payload is read later, through the view), so
    skipping does not require the bytes to be in the window. *)
Definition skipBytes (byteLength : Z) : M unit := fun r =>
  (Resolved tt, advance byteLength r).

End DataReader.

Import DataReader.

Declare Scope reader_scope.
Delimit Scope reader_scope with reader.
Notation "x <- m ;; k" := (bind m (fun x => k))
(at level 100, m at next level, right associativity) : reader_scope.
Notation "m ;; k" := (bind m (fun _ => k))
(at level 100, right associativity) : reader_scope.
Local Open Scope reader_scope.

(** ** The unpacker *)

Module Binary.
Definition Magic : Z := 0x46546C67.
End Binary.

Module ContentFormat.
Definition JSON : Z := 0.
End ContentFormat.

Module ChunkFormat.
Definition JSON : Z := 0x4E4F534A.
Definition BIN : Z := 0x004E4942.
End ChunkFormat.

Section Loader.

(** The value of a parsed document and [JSON.parse], which throws a
    [SyntaxError] on text that is not JSON. *)
Variable Object : Type.
Variable JSON_parse : string -> option Object.

(** [IGLTFLoaderData] *)
Record IGLTFLoaderData : Type := {
  json : Object;
  bin : option IDataBuffer
}.

(** [_parseJson]; the performance counters and the log are left out. *)
Definition _parseJson (text : string) : M Object :=
  match JSON_parse text with
  | Some parsed => ret parsed
  | None => throw JSONSyntaxError
  end.

Definition _unpackBinaryV1Async : M IGLTFLoaderData :=
  contentLength <- readUint32 ;;
  contentFormat <- readUint32 ;;
  if negb (contentFormat =? ContentFormat.JSON)
  then throw (UnexpectedContentFormat contentFormat)
  else
    buffer <- getBuffer ;;
    byteOffset <- getByteOffset ;;
    let bodyLength := byteLength buffer - byteOffset in
    text <- readString contentLength ;;
    parsed <- _parseJson text ;;
    let data := {| json := parsed; bin := None |} in
    if negb (bodyLength =? 0)
    then
      startByteOffset <- getByteOffset ;;
      ret {| json := json data;
             bin := Some (binView buffer startByteOffset bodyLength) |}
    else ret data.

(** The closure [readAsync] of [_unpackBinaryV2Async]: one turn reads a
    chunk header, handles the chunk and, unless the cursor is at the end
    of the buffer, loads the next header and goes round again.  [fuel]
    bounds the number of turns. *)
Fixpoint _unpackBinaryV2Async_readAsync (fuel : nat) (data : IGLTFLoaderData)
  : M IGLTFLoaderData :=
  match fuel with
  | O => unsettled
  | S fuel' =>
      chunkLength <- readUint32 ;;
      chunkFormat <- readUint32 ;;
      data' <-
        (if chunkFormat =? ChunkFormat.JSON
         then throw UnexpectedJSONChunk
         else if chunkFormat =? ChunkFormat.BIN
         then
           buffer <- getBuffer ;;
           startByteOffset <- getByteOffset ;;
           skipBytes chunkLength ;;
           ret {| json := json data;
                  bin := Some (binView buffer startByteOffset chunkLength) |}
         else
           (* ignore unrecognized chunkFormat *)
           skipBytes chunkLength ;;
           ret data) ;;
      buffer <- getBuffer ;;
      byteOffset <- getByteOffset ;;
      if negb (byteOffset =? byteLength buffer)
      then loadAsync 8 ;; _unpackBinaryV2Async_readAsync fuel' data'
      else ret data'
  end.

Definition _unpackBinaryV2Async (fuel : nat) : M IGLTFLoaderData :=
  (* Read the JSON chunk header. *)
  chunkLength <- readUint32 ;;
  chunkFormat <- readUint32 ;;
  if negb (chunkFormat =? ChunkFormat.JSON)
  then throw FirstChunkNotJSON
  else
    buffer <- getBuffer ;;
    byteOffset <- getByteOffset ;;
    (* Bail if there are no other chunks. *)
    if byteOffset + chunkLength =? byteLength buffer
    then
      loadAsync chunkLength ;;
      text <- readString chunkLength ;;
      parsed <- _parseJson text ;;
      ret {| json := parsed; bin := None |}
    else
      (* Read the JSON chunk and the length and type of the next chunk. *)
      loadAsync (chunkLength + 8) ;;
      text <- readString chunkLength ;;
      parsed <- _parseJson text ;;
      _unpackBinaryV2Async_readAsync fuel {| json := parsed; bin := None |}.

Definition _unpackBinaryAsync (fuel : nat) : M IGLTFLoaderData :=
  (* Read magic + version + length + json length + json format *)
  loadAsync 20 ;;
  magic <- readUint32 ;;
  if negb (magic =? Binary.Magic)
  then throw (UnexpectedMagic magic)
  else
    version <- readUint32 ;;
    length <- readUint32 ;;
    buffer <- getBuffer ;;
    if negb (length =? byteLength buffer)
    then throw (LengthMismatch length (byteLength buffer))
    else
      if version =? 1 then _unpackBinaryV1Async
      else if version =? 2 then _unpackBinaryV2Async fuel
      else throw (UnsupportedVersion version).

(** [this._unpackBinaryAsync(new DataReader(buffer))] *)
Definition unpack (fuel : nat) (buffer : IDataBuffer) : outcome IGLTFLoaderData * DataReader.t :=
  _unpackBinaryAsync fuel (DataReader.make buffer).

End Loader.

(** ** Version strings *)

Module Version.

Record t : Type := { major : Z; minor : Z }.

(** [\d]: an ASCII decimal digit. *)
Definition isDigit (c : ascii) : bool :=
  let n := Z.of_N (N_of_ascii c) in (48 <=? n) && (n <=? 57).

(** [\d+] is greedy: [digits s] is the longest prefix of digits of [s],
    with what follows it. *)
Fixpoint digits (s : string) : string * string :=
  match s with
  | String c s' =>
      if isDigit c
      then let (d, rest) := digits s' in (String c d, rest)
      else (EmptyString, s)
  | EmptyString => (EmptyString, EmptyString)
  end.

(** [parseInt] of a string of decimal digits: the number they write.  A
    JavaScript number holds it exactly when it is below 2^53; properties
    of the numbers returned are stated for such numerals. *)
Definition parseInt (s : string) : Z :=
  fold_left (fun acc c => 10 * acc + (Z.of_N (N_of_ascii c) - 48))
            (list_ascii_of_string s) 0.

(** [(version + "").match(/^(\d+)\.(\d+)/)]: the two groups, if the text
    starts with digits, a dot and digits.  A shorter first group cannot
    match where the longest one does not (it would be followed by a digit,
    not by the dot), so no backtracking is needed. *)
Definition matchVersion (version : string) : option (string * string) :=
  let (m1, rest1) := digits version in
  match m1, rest1 with
  | String _ _, String "."%char rest2 =>
      let (m2, _) := digits rest2 in
      match m2 with
      | String _ _ => Some (m1, m2)
      | EmptyString => None
      end
  | _, _ => None
  end.

Definition _parseVersion (version : string) : option t :=
  if (version =? "1.0")%string || (version =? "1.0.1")%string
  then Some {| major := 1; minor := 0 |}
  else
    match matchVersion version with
    | None => None
    | Some (m1, m2) => Some {| major := parseInt m1; minor := parseInt m2 |}
    end.

(** A non-empty string of digits. *)
Definition numeral (s : string) : Prop :=
  s <> EmptyString /\ forallb isDigit (list_ascii_of_string s) = true.

(** The string does not start with a digit. *)
Definition noLeadingDigit (s : string) : Prop :=
  match s with
  | String c _ => isDigit c = false
  | EmptyString => True
  end.

End Version.

(** ** The wire format

    The layout of containers, used to state which inputs a property is
    about: all fields little-endian, a 12-byte header [magic],
    [format version], [total length], then for the chunked layout a run of
    chunks [length], [format], payload, and for the legacy layout
    [contentLength], [contentFormat], the content and the body. *)

Module Layout.

Record chunk : Type := { format : Z; payload : list byte }.

Definition header (version total : Z) : list byte :=
  le32 Binary.Magic ++ le32 version ++ le32 total.

Definition encodeChunk (c : chunk) : list byte :=
  le32 (len (payload c)) ++ le32 (format c) ++ payload c.

Definition encodeChunks (cs : list chunk) : list byte :=
  flat_map encodeChunk cs.

(** A chunked container: the JSON chunk with [text], then [cs]. *)
Definition chunked (text : list byte) (cs : list chunk) : list byte :=
  let body :=
    encodeChunk {| format := ChunkFormat.JSON; payload := text |}
    ++ encodeChunks cs in
  header 2 (12 + len body) ++ body.

(** A legacy container: the JSON content [text], then the body. *)
Definition legacy (text body : list byte) : list byte :=
  header 1 (20 + len text + len body)
  ++ le32 (len text) ++ le32 ContentFormat.JSON ++ text ++ body.

(** A chunk format is a 32-bit field. *)
Definition formatsInRange (cs : list chunk) : Prop :=
  Forall (fun c => 0 <= format c < 2 ^ 32) cs.

Definition isJSON (c : chunk) : bool := format c =? ChunkFormat.JSON.
Definition isBIN (c : chunk) : bool := format c =? ChunkFormat.BIN.

End Layout.
Import Layout.

(** A buffer serves [bytes] when it has their length and every read
    inside them resolves with the bytes asked for.  The in-memory buffer
    does; so does a range-request buffer over a server that honours
    ranges. *)
Definition serves (b : IDataBuffer) (bytes : list byte) : Prop :=
  byteLength b = len bytes /\
  forall o n, 0 <= o -> 0 <= n -> o + n <= len bytes ->
    readAsync b o n = Some (slice bytes o n).

(** All requests issued by the reader end at or before position [n]. *)
Definition requestedWithin (n : Z) (r : DataReader.t) : Prop :=
  Forall (fun q => fst q + snd q <= n) (requests r).

(** ** Reader states, the chunk walk and views *)

(** The reader over buffer [b], which serves [bytes], at cursor [p], with
    the first [k] bytes loaded and the request log [q]. *)
Definition state (b : IDataBuffer) (bytes : list byte) (p k : Z)
    (q : list (Z * Z)) : DataReader.t :=
  {| buffer := b; byteOffset := p;
     window := firstn (Z.to_nat k) bytes; requests := q |}.

(** What the chunk loop makes of the chunks [cs] laid out from position
    [p] of buffer [b]: a JSON chunk is an error, a BIN chunk replaces
    [bin] by the view of its payload, any other chunk leaves the data as
    they are. *)
Fixpoint walk (Object : Type) (b : IDataBuffer) (p : Z)
    (data : IGLTFLoaderData Object) (cs : list chunk)
  : outcome (IGLTFLoaderData Object) :=
  match cs with
  | [] => Resolved data
  | c :: cs' =>
      if isJSON c then Rejected UnexpectedJSONChunk
      else
        walk b (p + 8 + len (payload c))
             (if isBIN c
              then {| json := json data;
                      bin := Some (binView b (p + 8) (len (payload c))) |}
              else data)
             cs'
  end.

(** The last BIN chunk of [cs], laid out from position [p]: where its
    payload starts, and the payload. *)
Fixpoint lastBIN (p : Z) (cs : list chunk) : option (Z * list byte) :=
  match cs with
  | [] => None
  | c :: cs' =>
      match lastBIN (p + 8 + len (payload c)) cs' with
      | Some found => Some found
      | None => if isBIN c then Some (p + 8, payload c) else None
      end
  end.

(** [bin] is a view of exactly these bytes (or there is neither): it has
    their length and every read inside it resolves with the bytes asked
    for. *)
Definition viewOf (bin : option IDataBuffer) (content : option (list byte)) : Prop :=
  match bin, content with
  | None, None => True
  | Some view, Some bs =>
      byteLength view = len bs /\
      forall o n, 0 <= o -> 0 <= n -> o + n <= len bs ->
        readAsync view o n = Some (slice bs o n)
  | _, _ => False
  end.

Definition noJSON (cs : list chunk) : bool := forallb (fun c => negb (isJSON c)) cs.
Definition noBIN (cs : list chunk) : bool := forallb (fun c => negb (isBIN c)) cs.

(** Chunks that carry neither the JSON nor the BIN format. *)
Definition unrecognized (cs : list chunk) : bool :=
  forallb (fun c => negb (isJSON c) && negb (isBIN c)) cs.

(** The payload of the last BIN chunk among [cs], if there is a BIN
    chunk. *)
Definition lastBINPayload (cs : list chunk) : option (list byte) :=
  match rev (filter isBIN cs) with
  | c :: _ => Some (payload c)
  | [] => None
  end.

(** ** Inputs for concrete runs *)

(** A parser that accepts every text and returns it, for concrete runs. *)
Definition parseAny (text : string) : option string := Some text.

(** A parser that refuses every text. *)
Definition parseNone (text : string) : option string := None.

Definition exampleText : list byte := list_byte_of_string "{}".

Definition exampleBIN : chunk :=
  {| format := ChunkFormat.BIN; payload := [x01; x02; x03] |}.

Definition exampleBIN2 : chunk :=
  {| format := ChunkFormat.BIN; payload := [x05] |}.

Definition exampleOther : chunk :=
  {| format := 7; payload := [x09] |}.

Definition exampleJSON : chunk :=
  {| format := ChunkFormat.JSON; payload := exampleText |}.

Definition exampleBody : list byte := [x01; x02; x03; x04].

Definition exampleChunked : list byte := chunked exampleText [exampleBIN].

Definition exampleVersion3 : list byte := header 3 20 ++ le32 0 ++ le32 0.

Definition exampleWrongLength : list byte := header 2 99 ++ le32 0 ++ le32 0.

(** ** Choosing the loader *)

(** [_compareVersion]: 1, -1 or 0. *)
Definition _compareVersion (a b : Version.t) : Z :=
  if Version.major a >? Version.major b then 1
  else if Version.major a <? Version.major b then -1
  else if Version.minor a >? Version.minor b then 1
  else if Version.minor a <? Version.minor b then -1
  else 0.

Module GetLoader.

(** The part of [loaderData.json.asset] that [_getLoader] reads to choose
    the loader ([generator] is only logged).  A field is a string, or
    [None] when it is [undefined]. *)
Record Asset : Type := { version : option string; minVersion : option string }.

(** [asset.version + ""], as [_parseVersion] sees an argument: the text
    itself, or ["undefined"]. *)
Definition text (field : option string) : string :=
  match field with
  | Some s => s
  | None => "undefined"%string
  end.

Inductive LoaderError : Type :=
| InvalidVersion                 (* "Invalid version: ..." *)
| InvalidMinimumVersion          (* "Invalid minimum version: ..." *)
| IncompatibleMinimumVersion     (* "Incompatible minimum version: ..." *)
| UnsupportedAssetVersion.       (* "Unsupported version: ..." *)

Section GetLoader.

(** The loaders that the version modules register on the class, if they
    have ([GLTFFileLoader._CreateGLTF1Loader], [_CreateGLTF2Loader]),
    already applied to the file loader. *)
Variable IGLTFLoader : Type.
Variable _CreateGLTF1Loader : option IGLTFLoader.
Variable _CreateGLTF2Loader : option IGLTFLoader.

(** [createLoaders[version.major]] *)
Definition createLoaders (major : Z) : option IGLTFLoader :=
  if major =? 1 then _CreateGLTF1Loader
  else if major =? 2 then _CreateGLTF2Loader
  else None.

Definition _getLoader (asset : Asset) : LoaderError + IGLTFLoader :=
  match Version._parseVersion (text (version asset)) with
  | None => inl InvalidVersion
  | Some version =>
      let checked :=
        match minVersion asset with
        | Some minText =>
            match Version._parseVersion minText with
            | None => Some InvalidMinimumVersion
            | Some minVersion =>
                if _compareVersion minVersion
                     {| Version.major := 2; Version.minor := 0 |} >? 0
                then Some IncompatibleMinimumVersion
                else None
            end
        | None => None
        end in
      match checked with
      | Some e => inl e
      | None =>
          match createLoaders (Version.major version) with
          | None => inl UnsupportedAssetVersion
          | Some createLoader => inr createLoader
          end
      end
  end.

End GetLoader.

End GetLoader.

(** ** Direct loading *)

(** [String.prototype.indexOf]: the position of the first occurrence, or
    -1. *)
Definition indexOf (s sub : string) : Z :=
  match String.index 0 sub s with
  | Some n => Z.of_nat n
  | None => -1
  end.

Definition canDirectLoad (data : string) : bool :=
  negb (indexOf data "asset" =? -1) && negb (indexOf data "version" =? -1).

(** ** The log *)

Module Log.

(** Which method the field [_log] holds. *)
Inductive LogMethod : Type := LogEnabled | LogDisabled.

(** The logging state of a file loader; [console] collects what was
    passed to [Logger.Log], oldest first. *)
Record t : Type := {
  _logIndentLevel : Z;
  _loggingEnabled : bool;
  _log : LogMethod;
  console : list string
}.

(** The field initialisers. *)
Definition initial : t :=
  {| _logIndentLevel := 0; _loggingEnabled := false; _log := LogDisabled;
     console := [] |}.

Definition _logSpaces : string := "                                ".

(** [s.substr(0, length)]; a negative length gives the empty string. *)
Definition substr0 (s : string) (length : Z) : string :=
  String.substring 0 (Z.to_nat length) s.

Definition _logEnabled (message : string) (st : t) : t :=
  let spaces := substr0 _logSpaces (_logIndentLevel st * 2) in
  {| _logIndentLevel := _logIndentLevel st;
     _loggingEnabled := _loggingEnabled st;
     _log := _log st;
     console := console st ++ [(spaces ++ message)%string] |}.

Definition _logDisabled (message : string) (st : t) : t := st.

(** [this._log(message)] *)
Definition log (message : string) (st : t) : t :=
  match _log st with
  | LogEnabled => _logEnabled message st
  | LogDisabled => _logDisabled message st
  end.

(** [set loggingEnabled(value)] *)
Definition set_loggingEnabled (value : bool) (st : t) : t :=
  if Bool.eqb (_loggingEnabled st) value then st
  else
    {| _logIndentLevel := _logIndentLevel st;
       _loggingEnabled := value;
       _log := if value then LogEnabled else LogDisabled;
       console := console st |}.

Definition _logOpen (message : string) (st : t) : t :=
  let st' := log message st in
  {| _logIndentLevel := _logIndentLevel st' + 1;
     _loggingEnabled := _loggingEnabled st';
     _log := _log st';
     console := console st' |}.

Definition _logClose (st : t) : t :=
  {| _logIndentLevel := _logIndentLevel st - 1;
     _loggingEnabled := _loggingEnabled st;
     _log := _log st;
     console := console st |}.

(** A call on the logging interface of the loader. *)
Inductive Call : Type :=
| SetLoggingEnabled (value : bool)
| LogMessage (message : string)
| LogOpen (message : string)
| LogClose.

Definition call (c : Call) (st : t) : t :=
  match c with
  | SetLoggingEnabled value => set_loggingEnabled value st
  | LogMessage message => log message st
  | LogOpen message => _logOpen message st
  | LogClose => _logClose st
  end.

(** The calls in order. *)
Definition calls (cs : list Call) (st : t) : t :=
  fold_left (fun st c => call c st) cs st.

Definition opens (cs : list Call) : Z :=
  Z.of_nat (List.length (filter (fun c => match c with LogOpen _ => true | _ => false end) cs)).

Definition closes (cs : list Call) : Z :=
  Z.of_nat (List.length (filter (fun c => match c with LogClose => true | _ => false end) cs)).

(** The method held by [_log] is the one of the flag. *)
Definition consistent (st : t) : Prop :=
  _log st = if _loggingEnabled st then LogEnabled else LogDisabled.

(** [n] spaces. *)
Fixpoint spaces (n : nat) : string :=
  match n with
  | O => EmptyString
  | S n' => String " "%char (spaces n')
  end.

End Log.

(** ** Containers that end in an incomplete chunk *)

(** A chunked container whose chunks [cs] are followed by [tail]; the
    declared length counts the tail. *)
Definition chunkedThen (text : list byte) (cs : list chunk) (tail : list byte)
  : list byte :=
  let body :=
    encodeChunk {| format := ChunkFormat.JSON; payload := text |}
    ++ encodeChunks cs ++ tail in
  header 2 (12 + len body) ++ body.

(** [tail] is the start of a chunk, but not a whole one: it stops inside
    the 8-byte chunk header, or it has a header (not of a JSON chunk) and
    fewer payload bytes than the header declares. *)
Definition incompleteChunk (tail : list byte) : Prop :=
  0 < len tail /\
  (len tail < 8 \/
   (getUint32 (slice tail 4 4) <> ChunkFormat.JSON /\
    len tail < 8 + getUint32 (slice tail 0 4))).

(** * Properties *)

(** ** Bytes *)

Lemma val_of_val (n : Z) : 0 <= n < 256 -> val (of_val n) = n.
Proof.
  intros Hn. unfold val, of_val.
  destruct (Byte.of_N (Z.to_N n)) as [b|] eqn:E.
  - apply Byte.to_of_N in E. rewrite E. lia.
  - apply Byte.of_N_None_iff in E. lia.
Qed.

Lemma getUint32_le32 (n : Z) : 0 <= n < 2 ^ 32 -> getUint32 (le32 n) = n.
Proof.
  intros Hn. unfold getUint32, le32.
  rewrite !val_of_val by (apply Z.mod_pos_bound; lia).
  change (2 ^ 32) with 4294967296 in Hn.
  pose proof (Z.div_mod n 256 ltac:(lia)).
  pose proof (Z.div_mod (n / 256) 256 ltac:(lia)).
  pose proof (Z.div_mod (n / 256 / 256) 256 ltac:(lia)).
  assert (E2 : n / 65536 = n / 256 / 256)
    by (rewrite Z.div_div by lia; reflexivity).
  assert (E3 : n / 16777216 = n / 256 / 256 / 256)
    by (rewrite !Z.div_div by lia; reflexivity).
  assert (Hs : n / 256 / 256 / 256 < 256).
  { apply Z.div_lt_upper_bound; [lia|].
    apply Z.div_lt_upper_bound; [lia|].
    apply Z.div_lt_upper_bound; lia. }
  assert (0 <= n / 256 / 256 / 256).
  { repeat (apply Z.div_pos; [|lia]). lia. }
  rewrite E2, E3.
  rewrite (Z.mod_small (n / 256 / 256 / 256) 256) by lia.
  lia.
Qed.

Lemma len_le32 (n : Z) : len (le32 n) = 4.
Proof. reflexivity. Qed.

Lemma len_app (l1 l2 : list byte) : len (l1 ++ l2) = len l1 + len l2.
Proof. unfold len. rewrite length_app. lia. Qed.

Lemma len_nonneg (l : list byte) : 0 <= len l.
Proof. unfold len. lia. Qed.

Lemma len_firstn (k : Z) (l : list byte) :
  0 <= k <= len l -> len (firstn (Z.to_nat k) l) = k.
Proof. unfold len. intros H. rewrite length_firstn. lia. Qed.

Lemma len_slice (l : list byte) (o n : Z) :
  0 <= o -> 0 <= n -> o + n <= len l -> len (slice l o n) = n.
Proof.
  unfold len, slice. intros Ho Hn H.
  rewrite length_firstn, length_skipn. lia.
Qed.

(** A prefix of the bytes answers reads that stay inside it. *)
Lemma slice_firstn (l : list byte) (k o n : Z) :
  0 <= o -> 0 <= n -> o + n <= k ->
  slice (firstn (Z.to_nat k) l) o n = slice l o n.
Proof.
  intros Ho Hn H. unfold slice.
  rewrite skipn_firstn_comm, firstn_firstn.
  f_equal. lia.
Qed.

(** Appending what was missing to a prefix gives the longer prefix. *)
Lemma firstn_app_slice (l : list byte) (k n : Z) :
  0 <= k -> 0 <= n ->
  firstn (Z.to_nat k) l ++ slice l k n = firstn (Z.to_nat (k + n)) l.
Proof.
  intros Hk Hn. unfold slice.
  rewrite Z2Nat.inj_add by lia.
  generalize (Z.to_nat k) (Z.to_nat n). clear.
  intros a. revert l. induction a as [|a IH]; intros l c; simpl.
  - reflexivity.
  - destruct l as [|x l]; simpl.
    + rewrite firstn_nil. reflexivity.
    + f_equal. apply IH.
Qed.

Lemma slice_of_skipn (l x rest : list byte) (p : Z) :
  skipn (Z.to_nat p) l = x ++ rest -> slice l p (len x) = x.
Proof.
  intros H. unfold slice, len. rewrite H, Nat2Z.id.
  rewrite firstn_app, Nat.sub_diag, firstn_all. simpl.
  apply app_nil_r.
Qed.

Lemma skipn_skipn_Z (l x rest : list byte) (p : Z) :
  0 <= p -> skipn (Z.to_nat p) l = x ++ rest ->
  skipn (Z.to_nat (p + len x)) l = rest.
Proof.
  intros Hp H. unfold len.
  rewrite Z2Nat.inj_add, Nat2Z.id by lia.
  rewrite Nat.add_comm, <- skipn_skipn, H.
  rewrite skipn_app, skipn_all, Nat.sub_diag. reflexivity.
Qed.

Lemma len_of_skipn (l rest : list byte) (p : Z) :
  0 <= p <= len l -> skipn (Z.to_nat p) l = rest -> len l = p + len rest.
Proof.
  unfold len. intros Hp H. rewrite <- H, length_skipn. lia.
Qed.

(** Reading inside a slice is reading the bytes it was cut from. *)
Lemma slice_slice (l : list byte) (s m o n : Z) :
  0 <= s -> 0 <= o -> 0 <= n -> o + n <= m ->
  slice (slice l s m) o n = slice l (s + o) n.
Proof.
  intros Hs Ho Hn H. unfold slice.
  rewrite skipn_firstn_comm, firstn_firstn, skipn_skipn.
  f_equal; [lia|]. f_equal. lia.
Qed.

(** ** Running the reader over a buffer that serves known bytes *)

Section Run.

Variable b : IDataBuffer.
Variable bytes : list byte.
Hypothesis Hserves : serves b bytes.

Lemma make_state : DataReader.make b = state b bytes 0 0 [].
Proof. reflexivity. Qed.

Lemma loaded_state (p k : Z) q :
  0 <= k <= len bytes -> loaded (state b bytes p k q) = k.
Proof. intros H. unfold loaded; simpl. apply len_firstn, H. Qed.

Lemma loadAsync_state (n p k : Z) q :
  0 <= k <= len bytes -> p + n <= len bytes ->
  loadAsync n (state b bytes p k q) =
  (Resolved tt,
   if p + n <=? k then state b bytes p k q
   else state b bytes p (p + n) (q ++ [(k, p + n - k)])).
Proof.
  intros Hk Hn. unfold loadAsync.
  rewrite loaded_state by assumption.
  cbv zeta. change (byteOffset (state b bytes p k q)) with p.
  destruct (p + n <=? k) eqn:E; [reflexivity|].
  apply Z.leb_gt in E.
  change (buffer (state b bytes p k q)) with b. cbn [fst snd].
  destruct Hserves as [_ Hread].
  rewrite Hread by lia.
  unfold state; cbn [window requests].
  rewrite firstn_app_slice by lia.
  do 3 f_equal. lia.
Qed.

Lemma readUint32_state (p k : Z) q :
  0 <= p -> p + 4 <= k -> k <= len bytes ->
  readUint32 (state b bytes p k q) =
  (Resolved (getUint32 (slice bytes p 4)), state b bytes (p + 4) k q).
Proof.
  intros Hp Hk Hl. unfold readUint32, inWindow.
  rewrite loaded_state by lia.
  change (byteOffset (state b bytes p k q)) with p.
  replace ((0 <=? p) && (0 <=? 4) && (p + 4 <=? k)) with true
    by (symmetry; rewrite !andb_true_iff, !Z.leb_le; lia).
  cbn [window state]. rewrite slice_firstn by lia. reflexivity.
Qed.

Lemma readString_state (n p k : Z) q :
  0 <= p -> 0 <= n -> p + n <= k -> k <= len bytes ->
  readString n (state b bytes p k q) =
  (Resolved (string_of_list_byte (slice bytes p n)), state b bytes (p + n) k q).
Proof.
  intros Hp Hn Hk Hl. unfold readString, inWindow.
  rewrite loaded_state by lia.
  change (byteOffset (state b bytes p k q)) with p.
  replace ((0 <=? p) && (0 <=? n) && (p + n <=? k)) with true
    by (symmetry; rewrite !andb_true_iff, !Z.leb_le; lia).
  cbn [window state]. rewrite slice_firstn by lia. reflexivity.
Qed.

(** A field read over bytes that are not loaded is a fault. *)
Lemma readString_fault (n p k : Z) q :
  0 <= k <= len bytes -> k < p + n ->
  readString n (state b bytes p k q) = (Rejected WindowFault, state b bytes p k q).
Proof.
  intros Hk Hn. unfold readString, inWindow.
  rewrite loaded_state by lia.
  change (byteOffset (state b bytes p k q)) with p.
  replace (p + n <=? k) with false by (symmetry; apply Z.leb_gt; lia).
  rewrite andb_false_r. reflexivity.
Qed.

Lemma skipBytes_state (n p k : Z) q :
  skipBytes n (state b bytes p k q) = (Resolved tt, state b bytes (p + n) k q).
Proof. reflexivity. Qed.

Lemma getBuffer_state (p k : Z) q :
  getBuffer (state b bytes p k q) = (Resolved b, state b bytes p k q).
Proof. reflexivity. Qed.

Lemma getByteOffset_state (p k : Z) q :
  getByteOffset (state b bytes p k q) = (Resolved p, state b bytes p k q).
Proof. reflexivity. Qed.

End Run.

(** ** The header *)

Lemma bind_run {A B : Type} (m : M A) (k : A -> M B) (r : DataReader.t) :
  bind m k r =
  match m r with
  | (Resolved a, r') => k a r'
  | (Rejected e, r') => (Rejected e, r')
  | (Unsettled, r') => (Unsettled, r')
  end.
Proof. reflexivity. Qed.

(** One step of a run: unfold the outermost [bind], rewrite the first
    computation with the given equation and reduce. *)
Ltac run_step lem :=
  rewrite bind_run; rewrite lem by lia; cbv beta iota.

Lemma readUint32_window (b : IDataBuffer) (p : Z) (w : list byte) q :
  0 <= p -> p + 4 <= len w ->
  readUint32 {| buffer := b; byteOffset := p; window := w; requests := q |} =
  (Resolved (getUint32 (slice w p 4)),
   {| buffer := b; byteOffset := p + 4; window := w; requests := q |}).
Proof.
  intros Hp Hw. unfold readUint32, inWindow, loaded. cbn [byteOffset window].
  replace ((0 <=? p) && (0 <=? 4) && (p + 4 <=? len w)) with true
    by (symmetry; rewrite !andb_true_iff, !Z.leb_le; lia).
  reflexivity.
Qed.

Lemma loadAsync_make (b : IDataBuffer) (n : Z) (data : list byte) :
  0 < n -> readAsync b 0 n = Some data ->
  loadAsync n (DataReader.make b) =
  (Resolved tt,
   {| buffer := b; byteOffset := 0; window := data; requests := [(0, n)] |}).
Proof.
  intros Hn H. unfold loadAsync, loaded, DataReader.make.
  cbn [byteOffset window buffer requests len List.length Z.of_nat fst snd].
  replace (0 + n <=? 0) with false by (symmetry; apply Z.leb_gt; lia).
  replace (0 + n - 0) with n by lia.
  rewrite H. reflexivity.
Qed.

Section Header.

Variable Object : Type.
Variable JSON_parse : string -> option Object.
Variable b : IDataBuffer.
Variable hdr : list byte.
Hypothesis Hload : readAsync b 0 20 = Some hdr.

Lemma unpack_bad_magic (fuel : nat) :
  4 <= len hdr -> getUint32 (slice hdr 0 4) <> Binary.Magic ->
  unpack JSON_parse fuel b =
  (Rejected (UnexpectedMagic (getUint32 (slice hdr 0 4))),
   {| buffer := b; byteOffset := 4; window := hdr; requests := [(0, 20)] |}).
Proof.
  intros Hlen Hm. unfold unpack, _unpackBinaryAsync.
  rewrite bind_run, (loadAsync_make b (n:=20) ltac:(lia) Hload). cbv beta iota.
  run_step readUint32_window.
  replace (getUint32 (slice hdr 0 4) =? Binary.Magic) with false
    by (symmetry; apply Z.eqb_neq; assumption).
  reflexivity.
Qed.

(** The run up to the dispatch on the version. *)
Lemma unpack_header (fuel : nat) :
  12 <= len hdr -> getUint32 (slice hdr 0 4) = Binary.Magic ->
  unpack JSON_parse fuel b =
  let r := {| buffer := b; byteOffset := 12; window := hdr;
              requests := [(0, 20)] |} in
  let version := getUint32 (slice hdr 4 4) in
  let length := getUint32 (slice hdr 8 4) in
  if negb (length =? byteLength b)
  then (Rejected (LengthMismatch length (byteLength b)), r)
  else if version =? 1 then _unpackBinaryV1Async JSON_parse r
  else if version =? 2 then _unpackBinaryV2Async JSON_parse fuel r
  else (Rejected (UnsupportedVersion version), r).
Proof.
  intros Hlen Hm. unfold unpack, _unpackBinaryAsync.
  rewrite bind_run, (loadAsync_make b (n:=20) ltac:(lia) Hload). cbv beta iota.
  run_step readUint32_window. rewrite Hm.
  change (negb (Binary.Magic =? Binary.Magic)) with false. cbv iota.
  change (0 + 4) with 4.
  run_step readUint32_window. change (4 + 4) with 8.
  run_step readUint32_window. change (8 + 4) with 12.
  rewrite bind_run. cbn [getBuffer buffer]. cbv zeta.
  destruct (negb (getUint32 (slice hdr 8 4) =? byteLength b)); [reflexivity|].
  destruct (getUint32 (slice hdr 4 4) =? 1); [reflexivity|].
  destruct (getUint32 (slice hdr 4 4) =? 2); reflexivity.
Qed.

End Header.

(** ** The chunk loop *)

Section Chunked.

Variable Object : Type.
Variable JSON_parse : string -> option Object.
Variable b : IDataBuffer.
Variable bytes : list byte.
Hypothesis Hserves : serves b bytes.
Hypothesis Hsize : len bytes < 2 ^ 32.

Lemma len_encodeChunk (c : chunk) : len (encodeChunk c) = 8 + len (payload c).
Proof. unfold encodeChunk. rewrite !len_app, !len_le32. lia. Qed.

Lemma len_encodeChunks_nonempty (cs : list chunk) :
  cs <> [] -> 8 <= len (encodeChunks cs).
Proof.
  destruct cs as [|c cs]; [congruence|]. intros _.
  change (encodeChunks (c :: cs)) with (encodeChunk c ++ encodeChunks cs).
  rewrite len_app, len_encodeChunk.
  pose proof (len_nonneg (payload c)). pose proof (len_nonneg (encodeChunks cs)).
  lia.
Qed.

Lemma readAsync_walk (cs : list chunk) :
  forall (fuel : nat) (data : IGLTFLoaderData Object) (p k : Z) q,
    cs <> [] -> (List.length cs <= fuel)%nat -> formatsInRange cs ->
    0 <= p -> skipn (Z.to_nat p) bytes = encodeChunks cs ->
    p + 8 <= k <= len bytes ->
    fst (_unpackBinaryV2Async_readAsync fuel data (state b bytes p k q))
    = walk b p data cs.
Proof.
  induction cs as [|c cs' IH]; intros fuel data p k q Hne Hfuel Hfmt Hp Hskip Hk;
    [congruence|].
  destruct fuel as [|fuel']; [simpl in Hfuel; lia|].
  inversion Hfmt as [|? ? Hc Hfmt']; subst.
  change (encodeChunks (c :: cs')) with (encodeChunk c ++ encodeChunks cs') in Hskip.
  unfold encodeChunk in Hskip. rewrite <- !app_assoc in Hskip.
  pose proof (len_nonneg (payload c)) as HL.
  pose proof (len_nonneg (encodeChunks cs')) as HR.
  pose proof (slice_of_skipn _ _ _ _ Hskip) as E1. rewrite len_le32 in E1.
  pose proof (@skipn_skipn_Z _ _ _ p Hp Hskip) as Hskip2.
  rewrite len_le32 in Hskip2.
  pose proof (slice_of_skipn _ _ _ _ Hskip2) as E2. rewrite len_le32 in E2.
  assert (Hp4 : 0 <= p + 4) by lia.
  pose proof (@skipn_skipn_Z _ _ _ (p + 4) Hp4 Hskip2) as Hskip3.
  rewrite len_le32 in Hskip3. replace (p + 4 + 4) with (p + 8) in Hskip3 by lia.
  assert (Hp8 : 0 <= p + 8) by lia.
  pose proof (@skipn_skipn_Z _ _ _ (p + 8) Hp8 Hskip3) as Hskip4.
  assert (Hlen : len bytes = p + 8 + len (payload c) + len (encodeChunks cs')).
  { assert (Hp8' : 0 <= p + 8 <= len bytes) by lia.
    pose proof (@len_of_skipn bytes _ (p + 8) Hp8' Hskip3) as Hl.
    rewrite len_app in Hl. lia. }
  destruct Hserves as [Hbl _].
  cbn [_unpackBinaryV2Async_readAsync walk].
  run_step readUint32_state. rewrite E1, getUint32_le32 by lia.
  run_step readUint32_state. rewrite E2, getUint32_le32 by lia.
  replace (p + 4 + 4) with (p + 8) by lia.
  unfold isJSON, isBIN.
  rewrite bind_run.
  destruct (format c =? ChunkFormat.JSON); [reflexivity|].
  set (data' := if format c =? ChunkFormat.BIN
                then {| json := json data;
                        bin := Some (binView b (p + 8) (len (payload c))) |}
                else data).
  assert (Hstep :
    (if format c =? ChunkFormat.BIN
     then
       buffer <- getBuffer ;;
       startByteOffset <- getByteOffset ;;
       skipBytes (len (payload c)) ;;
       ret {| json := json data;
              bin := Some (binView buffer startByteOffset (len (payload c))) |}
     else skipBytes (len (payload c)) ;; ret data)
      (state b bytes (p + 8) k q)
    = (Resolved data', state b bytes (p + 8 + len (payload c)) k q)).
  { subst data'. destruct (format c =? ChunkFormat.BIN); reflexivity. }
  rewrite Hstep. cbv beta iota.
  rewrite bind_run, getBuffer_state. cbv beta iota.
  rewrite bind_run, getByteOffset_state. cbv beta iota.
  rewrite Hbl.
  destruct cs' as [|c' cs''].
  - (* the last chunk: the cursor is at the end of the buffer *)
    change (len (encodeChunks [])) with 0 in Hlen.
    replace (p + 8 + len (payload c) =? len bytes) with true
      by (symmetry; apply Z.eqb_eq; lia).
    reflexivity.
  - pose proof (len_encodeChunks_nonempty (cs:=c' :: cs'') ltac:(congruence)) as H8.
    replace (p + 8 + len (payload c) =? len bytes) with false
      by (symmetry; apply Z.eqb_neq; lia).
    cbn [negb]. cbv iota.
    rewrite bind_run, (loadAsync_state Hserves) by lia. cbv beta iota.
    destruct (p + 8 + len (payload c) + 8 <=? k) eqn:Ek.
    + apply Z.leb_le in Ek.
      apply IH; try assumption; try congruence; try lia.
      simpl in Hfuel |- *. lia.
    + apply Z.leb_gt in Ek.
      apply IH; try assumption; try congruence; try lia.
      simpl in Hfuel |- *. lia.
Qed.

End Chunked.

(** ** Containers served whole *)

Lemma state_after_header (b : IDataBuffer) (bytes : list byte) :
  {| buffer := b; byteOffset := 12; window := slice bytes 0 20;
     requests := [(0, 20)] |} = state b bytes 12 20 [(0, 20)].
Proof. reflexivity. Qed.

Lemma unpack_served (Object : Type) (JSON_parse : string -> option Object)
      (b : IDataBuffer) (bytes : list byte) (fuel : nat) :
  serves b bytes -> 20 <= len bytes ->
  getUint32 (slice bytes 0 4) = Binary.Magic ->
  unpack JSON_parse fuel b =
  let r := state b bytes 12 20 [(0, 20)] in
  let version := getUint32 (slice bytes 4 4) in
  let length := getUint32 (slice bytes 8 4) in
  if negb (length =? len bytes)
  then (Rejected (LengthMismatch length (len bytes)), r)
  else if version =? 1 then _unpackBinaryV1Async JSON_parse r
  else if version =? 2 then _unpackBinaryV2Async JSON_parse fuel r
  else (Rejected (UnsupportedVersion version), r).
Proof.
  intros [Hbl Hread] Hlen Hmagic.
  assert (Hload : readAsync b 0 20 = Some (slice bytes 0 20))
    by (apply Hread; lia).
  assert (Hh : len (slice bytes 0 20) = 20) by (apply len_slice; lia).
  assert (Hs : forall o, 0 <= o -> o + 4 <= 20 ->
                 slice (slice bytes 0 20) o 4 = slice bytes o 4).
  { intros o Ho Ho'. rewrite slice_slice by lia. reflexivity. }
  pose proof (@unpack_header Object JSON_parse b _ Hload fuel) as H.
  cbv zeta in H. rewrite !Hs in H by lia.
  rewrite H by (rewrite ?Hh; lia || assumption).
  rewrite state_after_header, Hbl. reflexivity.
Qed.

Lemma len_header (version total : Z) : len (header version total) = 12.
Proof. reflexivity. Qed.

Lemma len_chunked (text : list byte) (cs : list chunk) :
  len (chunked text cs) = 20 + len text + len (encodeChunks cs).
Proof.
  unfold chunked. cbv zeta.
  rewrite !len_app, len_header, len_encodeChunk. cbn [payload]. lia.
Qed.

Lemma len_legacy (text body : list byte) :
  len (legacy text body) = 20 + len text + len body.
Proof.
  unfold legacy. rewrite !len_app, len_header, !len_le32. lia.
Qed.

(** The fixed-position fields of a chunked container. *)
Lemma chunked_fields (text : list byte) (cs : list chunk) :
  let bytes := chunked text cs in
  slice bytes 0 4 = le32 Binary.Magic /\
  slice bytes 4 4 = le32 2 /\
  slice bytes 8 4 = le32 (len bytes) /\
  slice bytes 12 4 = le32 (len text) /\
  slice bytes 16 4 = le32 ChunkFormat.JSON /\
  skipn (Z.to_nat 20) bytes = text ++ encodeChunks cs.
Proof.
  cbv zeta. rewrite len_chunked.
  replace (20 + len text + len (encodeChunks cs))
    with (12 + len (encodeChunk {| format := ChunkFormat.JSON; payload := text |}
                    ++ encodeChunks cs))
    by (rewrite len_app, len_encodeChunk; cbn [payload]; lia).
  repeat split; reflexivity.
Qed.

(** The fixed-position fields of a legacy container. *)
Lemma legacy_fields (text body : list byte) :
  let bytes := legacy text body in
  slice bytes 0 4 = le32 Binary.Magic /\
  slice bytes 4 4 = le32 1 /\
  slice bytes 8 4 = le32 (len bytes) /\
  slice bytes 12 4 = le32 (len text) /\
  slice bytes 16 4 = le32 ContentFormat.JSON /\
  skipn (Z.to_nat 20) bytes = text ++ body.
Proof.
  cbv zeta. rewrite len_legacy. repeat split; reflexivity.
Qed.

Section ChunkedContainer.

Variable Object : Type.
Variable JSON_parse : string -> option Object.
Variable b : IDataBuffer.
Variable text : list byte.
Variable cs : list chunk.
Variable parsed : Object.
Hypothesis Hserves : serves b (chunked text cs).
Hypothesis Hsize : len (chunked text cs) < 2 ^ 32.
Hypothesis Hparse : JSON_parse (string_of_list_byte text) = Some parsed.

(** The run up to the JSON chunk's payload. *)
Lemma unpack_chunked_start (fuel : nat) :
  unpack JSON_parse fuel b =
  let r := state b (chunked text cs) 20 20 [(0, 20)] in
  if 20 + len text =? len (chunked text cs)
  then
    (loadAsync (len text) ;;
     text <- readString (len text) ;;
     parsed <- _parseJson JSON_parse text ;;
     ret {| json := parsed; bin := None |}) r
  else
    (loadAsync (len text + 8) ;;
     text <- readString (len text) ;;
     parsed <- _parseJson JSON_parse text ;;
     _unpackBinaryV2Async_readAsync fuel {| json := parsed; bin := None |}) r.
Proof.
  destruct (chunked_fields text cs) as (Hmagic & Hver & Htotal & Hlen & Hfmt & _).
  pose proof (len_chunked text cs) as Hl.
  pose proof (len_nonneg text). pose proof (len_nonneg (encodeChunks cs)).
  rewrite (unpack_served JSON_parse fuel Hserves)
    by (lia || (rewrite Hmagic; reflexivity)).
  cbv zeta. rewrite Hver, Htotal, getUint32_le32 by lia.
  rewrite Z.eqb_refl. cbn [negb].
  change (getUint32 (le32 2) =? 1) with false.
  change (getUint32 (le32 2) =? 2) with true. cbv iota.
  unfold _unpackBinaryV2Async.
  run_step readUint32_state. rewrite Hlen, getUint32_le32 by lia.
  change (12 + 4) with 16.
  run_step readUint32_state. rewrite Hfmt.
  change (getUint32 (le32 ChunkFormat.JSON)) with ChunkFormat.JSON.
  change (negb (ChunkFormat.JSON =? ChunkFormat.JSON)) with false. cbv iota.
  change (16 + 4) with 20.
  rewrite bind_run, getBuffer_state. cbv beta iota.
  rewrite bind_run, getByteOffset_state. cbv beta iota.
  destruct Hserves as [Hbl _]. rewrite Hbl.
  destruct (20 + len text =? len (chunked text cs)); reflexivity.
Qed.

Lemma chunked_text : slice (chunked text cs) 20 (len text) = text.
Proof.
  destruct (chunked_fields text cs) as (_ & _ & _ & _ & _ & Hskip).
  exact (slice_of_skipn _ _ _ _ Hskip).
Qed.

Lemma chunked_rest :
  skipn (Z.to_nat (20 + len text)) (chunked text cs) = encodeChunks cs.
Proof.
  destruct (chunked_fields text cs) as (_ & _ & _ & _ & _ & Hskip).
  exact (@skipn_skipn_Z _ _ _ 20 ltac:(lia) Hskip).
Qed.

(** A container that ends with its JSON chunk. *)
Lemma unpack_chunked_json_only (fuel : nat) :
  cs = [] ->
  unpack JSON_parse fuel b =
  (Resolved {| json := parsed; bin := None |},
   if len text =? 0
   then state b (chunked text cs) 20 20 [(0, 20)]
   else state b (chunked text cs) (20 + len text) (20 + len text)
          [(0, 20); (20, len text)]).
Proof.
  intros Hcs.
  pose proof (len_chunked text cs) as Hl.
  pose proof (len_nonneg text) as Ht.
  assert (Hz : len (encodeChunks cs) = 0) by (rewrite Hcs; reflexivity).
  rewrite unpack_chunked_start. cbv zeta.
  replace (20 + len text =? len (chunked text cs)) with true
    by (symmetry; apply Z.eqb_eq; lia).
  rewrite bind_run, (loadAsync_state Hserves) by lia. cbv beta iota.
  destruct (len text =? 0) eqn:E0.
  - apply Z.eqb_eq in E0.
    replace (20 + len text <=? 20) with true
      by (symmetry; apply Z.leb_le; lia).
    run_step readString_state. rewrite chunked_text.
    rewrite bind_run. unfold _parseJson. rewrite Hparse.
    unfold ret. cbv beta iota. do 2 f_equal. lia.
  - apply Z.eqb_neq in E0.
    replace (20 + len text <=? 20) with false
      by (symmetry; apply Z.leb_gt; lia).
    run_step readString_state. rewrite chunked_text.
    rewrite bind_run. unfold _parseJson. rewrite Hparse.
    unfold ret. cbv beta iota.
    replace (20 + len text - 20) with (len text) by lia. reflexivity.
Qed.

(** A container with further chunks: the loop decides. *)
Lemma unpack_chunked_walk (fuel : nat) :
  formatsInRange cs -> (List.length cs <= fuel)%nat ->
  fst (unpack JSON_parse fuel b) =
  walk b (20 + len text) {| json := parsed; bin := None |} cs.
Proof.
  intros Hfmt Hfuel.
  assert (Hcases : cs = [] \/ cs <> [])
    by (clear; destruct cs; [left; reflexivity | right; congruence]).
  destruct Hcases as [Hnil|Hne].
  - rewrite unpack_chunked_json_only by assumption.
    rewrite Hnil. reflexivity.
  - pose proof (len_chunked text cs) as Hl.
    pose proof (len_nonneg text) as Ht.
    pose proof (len_encodeChunks_nonempty Hne) as H8.
    rewrite unpack_chunked_start. cbv zeta.
    replace (20 + len text =? len (chunked text cs)) with false
      by (symmetry; apply Z.eqb_neq; lia).
    rewrite bind_run, (loadAsync_state Hserves) by lia. cbv beta iota.
    replace (20 + (len text + 8) <=? 20) with false
      by (symmetry; apply Z.leb_gt; lia).
    run_step readString_state. rewrite chunked_text.
    rewrite bind_run. unfold _parseJson. rewrite Hparse.
    unfold ret. cbv beta iota.
    apply (readAsync_walk Hserves Hsize); try assumption; try lia.
    apply chunked_rest.
Qed.

End ChunkedContainer.

(** ** What the walk returns *)

Section Walk.

Variable Object : Type.
Variable b : IDataBuffer.

Lemma walk_duplicate_json (cs : list chunk) :
  forall (p : Z) (data : IGLTFLoaderData Object),
    existsb isJSON cs = true ->
    walk b p data cs = Rejected UnexpectedJSONChunk.
Proof.
  induction cs as [|c cs' IH]; intros p data H; simpl in H.
  - discriminate.
  - simpl. destruct (isJSON c); [reflexivity|].
    apply IH. exact H.
Qed.

Lemma walk_last_bin (cs : list chunk) :
  forall (p : Z) (data : IGLTFLoaderData Object),
    noJSON cs = true ->
    walk b p data cs =
    Resolved {| json := json data;
                bin := match lastBIN p cs with
                       | Some (start, bs) => Some (binView b start (len bs))
                       | None => bin data
                       end |}.
Proof.
  induction cs as [|c cs' IH]; intros p data H.
  - destruct data; reflexivity.
  - unfold noJSON in H. simpl in H. apply andb_true_iff in H as [Hc H].
    simpl. apply negb_true_iff in Hc. rewrite Hc.
    rewrite IH by exact H.
    destruct (lastBIN (p + 8 + len (payload c)) cs') as [[start bs]|];
      destruct (isBIN c); reflexivity.
Qed.

End Walk.

Lemma lastBIN_none (cs : list chunk) :
  forall p, noBIN cs = true -> lastBIN p cs = None.
Proof.
  induction cs as [|c cs' IH]; intros p H; [reflexivity|].
  unfold noBIN in H. simpl in H. apply andb_true_iff in H as [Hc H].
  simpl. rewrite IH by exact H.
  apply negb_true_iff in Hc. rewrite Hc. reflexivity.
Qed.

Lemma encodeChunks_app (cs1 cs2 : list chunk) :
  encodeChunks (cs1 ++ cs2) = encodeChunks cs1 ++ encodeChunks cs2.
Proof. unfold encodeChunks. apply flat_map_app. Qed.

Lemma lastBIN_app (cs1 cs2 : list chunk) :
  forall p,
    lastBIN p (cs1 ++ cs2) =
    match lastBIN (p + len (encodeChunks cs1)) cs2 with
    | Some found => Some found
    | None => lastBIN p cs1
    end.
Proof.
  induction cs1 as [|c cs1 IH]; intros p.
  - change (len (encodeChunks [])) with 0. rewrite Z.add_0_r.
    change ([] ++ cs2) with cs2.
    destruct (lastBIN p cs2); reflexivity.
  - cbn [app lastBIN]. rewrite IH.
    change (encodeChunks (c :: cs1)) with (encodeChunk c ++ encodeChunks cs1).
    rewrite len_app, len_encodeChunk.
    replace (p + 8 + len (payload c) + len (encodeChunks cs1))
      with (p + (8 + len (payload c) + len (encodeChunks cs1))) by lia.
    destruct (lastBIN _ cs2); reflexivity.
Qed.

(** The last BIN chunk after any chunks and before chunks that are not
    BIN. *)
Lemma lastBIN_found (pre post : list chunk) (c : chunk) (p : Z) :
  isBIN c = true -> noBIN post = true ->
  lastBIN p (pre ++ c :: post) =
  Some (p + len (encodeChunks pre) + 8, payload c).
Proof.
  intros Hc Hpost. rewrite lastBIN_app. simpl.
  rewrite lastBIN_none by exact Hpost. rewrite Hc. reflexivity.
Qed.

(** Dropping the chunks that are not BIN keeps the last BIN payload. *)
Lemma lastBIN_filter (cs : list chunk) :
  forall p p',
    option_map snd (lastBIN p cs) = option_map snd (lastBIN p' (filter isBIN cs)).
Proof.
  induction cs as [|c cs' IH]; intros p p'; [reflexivity|].
  simpl. destruct (isBIN c) eqn:Hc.
  - simpl. rewrite Hc.
    specialize (IH (p + 8 + len (payload c)) (p' + 8 + len (payload c))).
    destruct (lastBIN (p + 8 + len (payload c)) cs') as [[s1 b1]|];
      destruct (lastBIN (p' + 8 + len (payload c)) (filter isBIN cs')) as [[s2 b2]|];
      simpl in IH |- *; congruence.
  - specialize (IH (p + 8 + len (payload c)) p').
    destruct (lastBIN (p + 8 + len (payload c)) cs') as [[s1 b1]|];
      destruct (lastBIN p' (filter isBIN cs')) as [[s2 b2]|];
      simpl in IH |- *; congruence.
Qed.

(** Where [lastBIN] points, the bytes are the payload. *)
Lemma lastBIN_located (bytes : list byte) (cs : list chunk) :
  forall p start bs,
    0 <= p <= len bytes ->
    skipn (Z.to_nat p) bytes = encodeChunks cs ->
    lastBIN p cs = Some (start, bs) ->
    p + 8 <= start /\ start + len bs <= len bytes /\
    slice bytes start (len bs) = bs.
Proof.
  induction cs as [|c cs' IH]; intros p start bs Hp Hskip Hlast;
    [discriminate|].
  change (encodeChunks (c :: cs')) with (encodeChunk c ++ encodeChunks cs') in Hskip.
  unfold encodeChunk in Hskip. rewrite <- !app_assoc in Hskip.
  pose proof (len_nonneg (payload c)) as HL.
  pose proof (len_nonneg (encodeChunks cs')) as HR.
  assert (Hlen : len bytes = p + 8 + len (payload c) + len (encodeChunks cs')).
  { pose proof (@len_of_skipn bytes _ p Hp Hskip) as Hl.
    rewrite !len_app, !len_le32 in Hl. lia. }
  assert (Hp0 : 0 <= p) by lia.
  pose proof (@skipn_skipn_Z _ _ _ p Hp0 Hskip) as Hskip2.
  rewrite len_le32 in Hskip2.
  assert (Hp4 : 0 <= p + 4) by lia.
  pose proof (@skipn_skipn_Z _ _ _ (p + 4) Hp4 Hskip2) as Hskip3.
  rewrite len_le32 in Hskip3. replace (p + 4 + 4) with (p + 8) in Hskip3 by lia.
  assert (Hp8 : 0 <= p + 8) by lia.
  pose proof (@skipn_skipn_Z _ _ _ (p + 8) Hp8 Hskip3) as Hskip4.
  simpl in Hlast.
  destruct (lastBIN (p + 8 + len (payload c)) cs') as [[s' b']|] eqn:E.
  - inversion Hlast; subst.
    assert (Hp' : 0 <= p + 8 + len (payload c) <= len bytes) by lia.
    destruct (IH _ _ _ Hp' Hskip4 E) as (H1 & H2 & H3).
    repeat split; [lia | lia | exact H3].
  - destruct (isBIN c); [|discriminate].
    inversion Hlast; subst.
    repeat split; [lia | lia |].
    exact (slice_of_skipn _ _ _ _ Hskip3).
Qed.

(** Reading through a view placed on a stretch of the served bytes. *)
Lemma binView_reads (b : IDataBuffer) (bytes bs : list byte) (start : Z) :
  serves b bytes -> 0 <= start -> start + len bs <= len bytes ->
  slice bytes start (len bs) = bs ->
  viewOf (Some (binView b start (len bs))) (Some bs).
Proof.
  intros [_ Hread] Hs Hl Hslice. split; [reflexivity|].
  intros o n Ho Hn Hon. cbn [readAsync binView].
  rewrite Hread by lia.
  rewrite <- (@slice_slice bytes start (len bs) o n) by lia.
  rewrite Hslice. reflexivity.
Qed.

Lemma unrecognized_noJSON (cs : list chunk) :
  unrecognized cs = true -> noJSON cs = true.
Proof.
  unfold unrecognized, noJSON. rewrite !forallb_forall.
  intros H c Hc. specialize (H c Hc). apply andb_true_iff in H. tauto.
Qed.

Lemma unrecognized_noBIN (cs : list chunk) :
  unrecognized cs = true -> noBIN cs = true.
Proof.
  unfold unrecognized, noBIN. rewrite !forallb_forall.
  intros H c Hc. specialize (H c Hc). apply andb_true_iff in H. tauto.
Qed.

Lemma noJSON_app (cs1 cs2 : list chunk) :
  noJSON (cs1 ++ cs2) = noJSON cs1 && noJSON cs2.
Proof. apply forallb_app. Qed.

Lemma isBIN_not_JSON (c : chunk) : isBIN c = true -> isJSON c = false.
Proof.
  unfold isBIN, isJSON. intros H. apply Z.eqb_eq in H. rewrite H. reflexivity.
Qed.

Section Resolved.

Variable Object : Type.
Variable JSON_parse : string -> option Object.
Variable b : IDataBuffer.
Variable text : list byte.
Variable cs : list chunk.
Variable parsed : Object.
Hypothesis Hserves : serves b (chunked text cs).
Hypothesis Hsize : len (chunked text cs) < 2 ^ 32.
Hypothesis Hparse : JSON_parse (string_of_list_byte text) = Some parsed.
Hypothesis Hfmt : formatsInRange cs.
Hypothesis HnoJSON : noJSON cs = true.

(** Without a second JSON chunk the unpacker resolves, with the view of
    the last BIN chunk if there is one. *)
Lemma unpack_chunked_resolved (fuel : nat) :
  (List.length cs <= fuel)%nat ->
  fst (unpack JSON_parse fuel b) =
  Resolved {| json := parsed;
              bin := match lastBIN (20 + len text) cs with
                     | Some (start, bs) => Some (binView b start (len bs))
                     | None => None
                     end |}.
Proof.
  intros Hfuel.
  rewrite (@unpack_chunked_walk Object JSON_parse b text cs parsed
             Hserves Hsize Hparse fuel Hfmt Hfuel).
  rewrite walk_last_bin by exact HnoJSON. reflexivity.
Qed.

Lemma lastBIN_chunked_located (start : Z) (bs : list byte) :
  lastBIN (20 + len text) cs = Some (start, bs) ->
  20 + len text + 8 <= start /\ start + len bs <= len (chunked text cs) /\
  slice (chunked text cs) start (len bs) = bs.
Proof.
  intros H.
  pose proof (len_chunked text cs) as Hl.
  pose proof (len_nonneg text). pose proof (len_nonneg (encodeChunks cs)).
  assert (Hp : 0 <= 20 + len text <= len (chunked text cs)) by lia.
  exact (@lastBIN_located _ cs _ start bs Hp (chunked_rest text cs) H).
Qed.

(** The returned [bin] is a view of the last BIN payload. *)
Lemma unpack_chunked_viewOf (fuel : nat) :
  (List.length cs <= fuel)%nat ->
  exists data,
    fst (unpack JSON_parse fuel b) = Resolved data /\
    json data = parsed /\
    viewOf (bin data) (option_map snd (lastBIN (20 + len text) cs)).
Proof.
  intros Hfuel. eexists. split; [apply unpack_chunked_resolved, Hfuel|].
  split; [reflexivity|]. cbn [bin].
  destruct (lastBIN (20 + len text) cs) as [[start bs]|] eqn:E; [|exact I].
  destruct (lastBIN_chunked_located E) as (H1 & H2 & H3).
  pose proof (len_nonneg text).
  cbn [option_map snd].
  apply binView_reads with (bytes := chunked text cs); try assumption; lia.
Qed.

End Resolved.

Lemma arrayBufferSource_serves (bytes : list byte) :
  serves (arrayBufferSource bytes) bytes.
Proof.
  split; [reflexivity|].
  intros o n Ho Hn H. cbn [readAsync arrayBufferSource].
  replace ((0 <=? o) && (0 <=? n) && (o + n <=? len bytes)) with true
    by (symmetry; rewrite !andb_true_iff, !Z.leb_le; lia).
  reflexivity.
Qed.

Lemma len_encodeChunks_filter (f : chunk -> bool) (cs : list chunk) :
  len (encodeChunks (filter f cs)) <= len (encodeChunks cs).
Proof.
  induction cs as [|c cs IH]; [reflexivity|].
  change (encodeChunks (c :: cs)) with (encodeChunk c ++ encodeChunks cs).
  rewrite len_app. pose proof (len_nonneg (encodeChunk c)).
  cbn [filter]. destruct (f c); [|lia].
  change (encodeChunks (c :: filter f cs))
    with (encodeChunk c ++ encodeChunks (filter f cs)).
  rewrite len_app. lia.
Qed.

Lemma formatsInRange_filter (f : chunk -> bool) (cs : list chunk) :
  formatsInRange cs -> formatsInRange (filter f cs).
Proof.
  unfold formatsInRange. rewrite !Forall_forall.
  intros H c Hc. apply filter_In in Hc. apply H, Hc.
Qed.

Lemma noJSON_filter (f : chunk -> bool) (cs : list chunk) :
  noJSON cs = true -> noJSON (filter f cs) = true.
Proof.
  unfold noJSON. rewrite !forallb_forall.
  intros H c Hc. apply filter_In in Hc. apply H, Hc.
Qed.

Lemma lastBIN_exists (cs : list chunk) :
  forall p, existsb isBIN cs = true -> lastBIN p cs <> None.
Proof.
  induction cs as [|c cs IH]; intros p H; [discriminate|].
  cbn [existsb] in H. cbn [lastBIN].
  destruct (lastBIN (p + 8 + len (payload c)) cs) eqn:E; [discriminate|].
  destruct (isBIN c); [discriminate|].
  exfalso. exact (IH _ H E).
Qed.

Lemma lastBIN_bound (cs : list chunk) :
  forall p start bs,
    lastBIN p cs = Some (start, bs) ->
    start + len bs <= p + len (encodeChunks cs).
Proof.
  induction cs as [|c cs IH]; intros p start bs H; [discriminate|].
  change (encodeChunks (c :: cs)) with (encodeChunk c ++ encodeChunks cs).
  rewrite len_app, len_encodeChunk.
  pose proof (len_nonneg (encodeChunks cs)).
  cbn [lastBIN] in H.
  destruct (lastBIN (p + 8 + len (payload c)) cs) as [[s' b']|] eqn:E.
  - inversion H; subst. specialize (IH _ _ _ E). lia.
  - destruct (isBIN c); [|discriminate]. inversion H; subst. lia.
Qed.

(** ** Chunked containers: the results *)

(** C2.  In a chunked container with a JSON chunk and one BIN chunk
    (chunks of other formats may stand before and after it), [unpack]
    resolves with a [bin] whose [byteLength] is the declared length of the
    BIN chunk and whose [readAsync(offset, length)] reads the original
    buffer from the first byte after the BIN chunk header; reading its full
    range gives exactly the BIN payload. *)
Theorem chunked_bin_view (Object : Type) (JSON_parse : string -> option Object)
    (b : IDataBuffer) (text : list byte) (pre post : list chunk) (c : chunk)
    (parsed : Object) (fuel : nat) :
  let cs := pre ++ c :: post in
  let binStart := 20 + len text + len (encodeChunks pre) + 8 in
  serves b (chunked text cs) ->
  len (chunked text cs) < 2 ^ 32 ->
  JSON_parse (string_of_list_byte text) = Some parsed ->
  formatsInRange cs ->
  unrecognized pre = true -> isBIN c = true -> unrecognized post = true ->
  (List.length cs <= fuel)%nat ->
  exists view,
    fst (unpack JSON_parse fuel b) = Resolved {| json := parsed; bin := Some view |} /\
    byteLength view = len (payload c) /\
    (forall o n, readAsync view o n = readAsync b (binStart + o) n) /\
    slice (chunked text cs) binStart (len (payload c)) = payload c /\
    readAsync view 0 (byteLength view) = Some (payload c).
Proof.
  intros cs binStart Hserves Hsize Hparse Hfmt Hpre Hc Hpost Hfuel.
  assert (HnoJSON : noJSON cs = true).
  { unfold cs. rewrite noJSON_app, (unrecognized_noJSON _ Hpre).
    unfold noJSON. cbn [forallb]. rewrite (isBIN_not_JSON _ Hc).
    apply (unrecognized_noJSON _ Hpost). }
  assert (Hlast : lastBIN (20 + len text) cs = Some (binStart, payload c)).
  { unfold cs, binStart.
    apply lastBIN_found; [exact Hc | apply unrecognized_noBIN, Hpost]. }
  pose proof (@unpack_chunked_resolved Object JSON_parse b text cs parsed
                Hserves Hsize Hparse Hfmt HnoJSON fuel Hfuel) as Hrun.
  rewrite Hlast in Hrun.
  destruct (@lastBIN_chunked_located text cs _ _ Hlast) as (H1 & H2 & H3).
  pose proof (len_nonneg text). pose proof (len_nonneg (payload c)).
  exists (binView b binStart (len (payload c))).
  repeat split; try assumption.
  cbn [readAsync binView byteLength].
  destruct Hserves as [_ Hread]. rewrite Hread by lia.
  replace (binStart + 0) with binStart by lia. rewrite H3. reflexivity.
Qed.

Lemma chunked_bin_view_witness :
  exists view,
    fst (unpack parseAny 2
           (arrayBufferSource (chunked exampleText [exampleOther; exampleBIN])))
    = Resolved {| json := "{}"%string; bin := Some view |} /\
    byteLength view = 3 /\
    (forall o n,
       readAsync view o n =
       readAsync (arrayBufferSource (chunked exampleText [exampleOther; exampleBIN]))
                 (39 + o) n) /\
    slice (chunked exampleText [exampleOther; exampleBIN]) 39 3 = [x01; x02; x03] /\
    readAsync view 0 (byteLength view) = Some [x01; x02; x03].
Proof.
  apply (@chunked_bin_view string parseAny
           (arrayBufferSource (chunked exampleText [exampleOther; exampleBIN]))
           exampleText [exampleOther] [] exampleBIN "{}"%string 2%nat).
  - apply arrayBufferSource_serves.
  - vm_compute. reflexivity.
  - reflexivity.
  - repeat constructor; vm_compute; congruence.
  - reflexivity.
  - reflexivity.
  - reflexivity.
  - simpl. lia.
Defined.

(** C3.  In a chunked container whose chunks after the first include a
    JSON chunk, wherever it stands, [unpack] is rejected with
    "Unexpected JSON chunk" and resolves with no data. *)
Theorem chunked_duplicate_json (Object : Type) (JSON_parse : string -> option Object)
    (b : IDataBuffer) (text : list byte) (cs : list chunk)
    (parsed : Object) (fuel : nat) :
  serves b (chunked text cs) ->
  len (chunked text cs) < 2 ^ 32 ->
  JSON_parse (string_of_list_byte text) = Some parsed ->
  formatsInRange cs ->
  existsb isJSON cs = true ->
  (List.length cs <= fuel)%nat ->
  fst (unpack JSON_parse fuel b) = Rejected UnexpectedJSONChunk /\
  forall data, fst (unpack JSON_parse fuel b) <> Resolved data.
Proof.
  intros Hserves Hsize Hparse Hfmt Hjson Hfuel.
  assert (Hrun : fst (unpack JSON_parse fuel b) = Rejected UnexpectedJSONChunk).
  { rewrite (@unpack_chunked_walk Object JSON_parse b text cs parsed
               Hserves Hsize Hparse fuel Hfmt Hfuel).
    apply walk_duplicate_json, Hjson. }
  split; [exact Hrun|]. intros data. rewrite Hrun. discriminate.
Qed.

Lemma chunked_duplicate_json_witness :
  fst (unpack parseAny 3
         (arrayBufferSource
            (chunked exampleText [exampleOther; exampleBIN; exampleJSON])))
  = Rejected UnexpectedJSONChunk /\
  forall data,
    fst (unpack parseAny 3
           (arrayBufferSource
              (chunked exampleText [exampleOther; exampleBIN; exampleJSON])))
    <> Resolved data.
Proof.
  apply (@chunked_duplicate_json string parseAny _ exampleText
           [exampleOther; exampleBIN; exampleJSON] "{}"%string 3%nat).
  - apply arrayBufferSource_serves.
  - vm_compute. reflexivity.
  - reflexivity.
  - repeat constructor; vm_compute; congruence.
  - reflexivity.
  - simpl. lia.
Defined.

(** C4.  When the JSON chunk of a chunked container ends where the
    buffer ends, [unpack] resolves with the parsed text and [bin: null],
    leaving the cursor at the end; the buffer has been asked for the first
    20 bytes and for the JSON text, and for nothing else: no further chunk
    header is requested. *)
Theorem chunked_json_only (Object : Type) (JSON_parse : string -> option Object)
    (b : IDataBuffer) (text : list byte) (parsed : Object) (fuel : nat) :
  serves b (chunked text []) ->
  len (chunked text []) < 2 ^ 32 ->
  JSON_parse (string_of_list_byte text) = Some parsed ->
  exists r,
    unpack JSON_parse fuel b = (Resolved {| json := parsed; bin := None |}, r) /\
    byteOffset r = byteLength b /\
    requests r = (0, 20) :: (if len text =? 0 then [] else [(20, len text)]) /\
    requestedWithin (byteLength b) r.
Proof.
  intros Hserves Hsize Hparse.
  pose proof (len_chunked text []) as Hl.
  change (len (encodeChunks [])) with 0 in Hl.
  pose proof (len_nonneg text) as Ht.
  destruct Hserves as [Hbl Hread].
  rewrite (@unpack_chunked_json_only Object JSON_parse b text [] parsed
             (conj Hbl Hread) Hsize Hparse fuel eq_refl).
  rewrite Hbl, Hl. unfold requestedWithin.
  destruct (len text =? 0) eqn:E0.
  - apply Z.eqb_eq in E0. eexists. split; [reflexivity|].
    cbn [byteOffset requests state]. repeat split; try lia.
    repeat constructor; cbn [fst snd]; lia.
  - eexists. split; [reflexivity|].
    cbn [byteOffset requests state]. repeat split; try lia.
    repeat constructor; cbn [fst snd]; lia.
Qed.

Lemma chunked_json_only_witness :
  exists r,
    unpack parseAny 0 (arrayBufferSource (chunked exampleText []))
    = (Resolved {| json := "{}"%string; bin := None |}, r) /\
    byteOffset r = 22 /\
    requests r = [(0, 20); (20, 2)] /\
    requestedWithin 22 r.
Proof.
  apply (@chunked_json_only string parseAny
           (arrayBufferSource (chunked exampleText [])) exampleText
           "{}"%string 0%nat).
  - apply arrayBufferSource_serves.
  - vm_compute. reflexivity.
  - reflexivity.
Defined.

(** C10.  A chunked container with more than one BIN chunk (and no second
    JSON chunk) is not rejected: each BIN chunk replaces the recorded
    view, so [bin] is the view of the last BIN chunk: its [byteLength] is
    that chunk's declared length and its reads start where that chunk's
    payload starts.  The payload of the BIN chunk recorded before it ends
    before that chunk's header. *)
Theorem chunked_last_bin_wins (Object : Type) (JSON_parse : string -> option Object)
    (b : IDataBuffer) (text : list byte) (pre post : list chunk) (c : chunk)
    (parsed : Object) (fuel : nat) :
  let cs := pre ++ c :: post in
  let binStart := 20 + len text + len (encodeChunks pre) + 8 in
  serves b (chunked text cs) ->
  len (chunked text cs) < 2 ^ 32 ->
  JSON_parse (string_of_list_byte text) = Some parsed ->
  formatsInRange cs ->
  noJSON cs = true ->
  existsb isBIN pre = true -> isBIN c = true -> noBIN post = true ->
  (List.length cs <= fuel)%nat ->
  exists view,
    fst (unpack JSON_parse fuel b) = Resolved {| json := parsed; bin := Some view |} /\
    byteLength view = len (payload c) /\
    (forall o n, readAsync view o n = readAsync b (binStart + o) n) /\
    slice (chunked text cs) binStart (len (payload c)) = payload c /\
    exists start0 bs0,
      lastBIN (20 + len text) pre = Some (start0, bs0) /\
      start0 + len bs0 + 8 <= binStart.
Proof.
  intros cs binStart Hserves Hsize Hparse Hfmt HnoJSON Hpre Hc Hpost Hfuel.
  assert (Hlast : lastBIN (20 + len text) cs = Some (binStart, payload c)).
  { unfold cs, binStart. apply lastBIN_found; assumption. }
  pose proof (@unpack_chunked_resolved Object JSON_parse b text cs parsed
                Hserves Hsize Hparse Hfmt HnoJSON fuel Hfuel) as Hrun.
  rewrite Hlast in Hrun.
  destruct (@lastBIN_chunked_located text cs _ _ Hlast) as (H1 & H2 & H3).
  exists (binView b binStart (len (payload c))).
  repeat split; try assumption.
  destruct (lastBIN (20 + len text) pre) as [[start0 bs0]|] eqn:E.
  - exists start0, bs0. split; [reflexivity|].
    pose proof (lastBIN_bound _ _ E). unfold binStart. lia.
  - exfalso. exact (lastBIN_exists pre (20 + len text) Hpre E).
Qed.

Lemma chunked_last_bin_wins_witness :
  exists view,
    fst (unpack parseAny 3
           (arrayBufferSource
              (chunked exampleText [exampleBIN; exampleOther; exampleBIN2])))
    = Resolved {| json := "{}"%string; bin := Some view |} /\
    byteLength view = 1 /\
    (forall o n,
       readAsync view o n =
       readAsync (arrayBufferSource
                    (chunked exampleText [exampleBIN; exampleOther; exampleBIN2]))
                 (50 + o) n) /\
    slice (chunked exampleText [exampleBIN; exampleOther; exampleBIN2]) 50 1 = [x05] /\
    exists start0 bs0,
      lastBIN 22 [exampleBIN; exampleOther] = Some (start0, bs0) /\
      start0 + len bs0 + 8 <= 50.
Proof.
  apply (@chunked_last_bin_wins string parseAny
           (arrayBufferSource
              (chunked exampleText [exampleBIN; exampleOther; exampleBIN2]))
           exampleText [exampleBIN; exampleOther] [] exampleBIN2 "{}"%string 3%nat).
  - apply arrayBufferSource_serves.
  - vm_compute. reflexivity.
  - reflexivity.
  - repeat constructor; vm_compute; congruence.
  - reflexivity.
  - reflexivity.
  - reflexivity.
  - reflexivity.
  - simpl. lia.
Defined.

(** ** The header: what is requested, and what is checked *)

(** C6, as the code has it.  When the first 20 bytes can be loaded and the
    leading 32-bit field is not the magic number, [unpack] is rejected with
    "Unexpected magic"; the buffer has been asked once, for the first 20
    bytes, and for nothing after that. *)
Theorem bad_magic_after_first_load (Object : Type)
    (JSON_parse : string -> option Object) (b : IDataBuffer)
    (hdr : list byte) (fuel : nat) :
  readAsync b 0 20 = Some hdr ->
  4 <= len hdr ->
  getUint32 (slice hdr 0 4) <> Binary.Magic ->
  unpack JSON_parse fuel b =
  (Rejected (UnexpectedMagic (getUint32 (slice hdr 0 4))),
   {| buffer := b; byteOffset := 4; window := hdr; requests := [(0, 20)] |}).
Proof.
  intros Hload Hlen Hmagic.
  exact (@unpack_bad_magic Object JSON_parse b hdr Hload fuel Hlen Hmagic).
Qed.

Lemma bad_magic_after_first_load_witness :
  unpack parseAny 0 (arrayBufferSource (repeat x00 20)) =
  (Rejected (UnexpectedMagic 0),
   {| buffer := arrayBufferSource (repeat x00 20); byteOffset := 4;
      window := repeat x00 20; requests := [(0, 20)] |}).
Proof.
  apply (@bad_magic_after_first_load string parseAny
           (arrayBufferSource (repeat x00 20)) (repeat x00 20) 0%nat).
  - reflexivity.
  - vm_compute. congruence.
  - vm_compute. congruence.
Defined.

(** C6, as stated, fails.  On 20 zero bytes the magic is wrong and the
    rejection is "Unexpected magic", but bytes beyond the first 4 have been
    requested; on 4 zero bytes alone the first load fails and "Unexpected
    magic" is never reached. *)
Lemma bad_magic_reads_beyond_4 :
  getUint32 (slice (repeat x00 20) 0 4) <> Binary.Magic /\
  fst (unpack parseAny 0 (arrayBufferSource (repeat x00 20)))
    = Rejected (UnexpectedMagic 0) /\
  requests (snd (unpack parseAny 0 (arrayBufferSource (repeat x00 20))))
    = [(0, 20)] /\
  ~ requestedWithin 4 (snd (unpack parseAny 0 (arrayBufferSource (repeat x00 20)))) /\
  fst (unpack parseAny 0 (arrayBufferSource (repeat x00 4)))
    = Rejected SourceReadError.
Proof.
  repeat split; try reflexivity.
  - vm_compute. congruence.
  - unfold requestedWithin. intros H.
    change (requests (snd (unpack parseAny 0 (arrayBufferSource (repeat x00 20)))))
      with [(0, 20)] in H.
    inversion H as [|? ? H1 _]; subst. cbn [fst snd] in H1. lia.
Qed.

(** C5, as the code has it.  When the first 20 bytes can be loaded, the
    magic and the declared length are right and the format version is
    neither 1 nor 2, [unpack] is rejected with "Unsupported version"; the
    buffer has been asked once, for the first 20 bytes (the 12-byte header
    and the 8 bytes after it), and for nothing after that. *)
Theorem unsupported_version_after_first_load (Object : Type)
    (JSON_parse : string -> option Object) (b : IDataBuffer)
    (hdr : list byte) (fuel : nat) :
  readAsync b 0 20 = Some hdr ->
  12 <= len hdr ->
  getUint32 (slice hdr 0 4) = Binary.Magic ->
  getUint32 (slice hdr 8 4) = byteLength b ->
  getUint32 (slice hdr 4 4) <> 1 ->
  getUint32 (slice hdr 4 4) <> 2 ->
  unpack JSON_parse fuel b =
  (Rejected (UnsupportedVersion (getUint32 (slice hdr 4 4))),
   {| buffer := b; byteOffset := 12; window := hdr; requests := [(0, 20)] |}).
Proof.
  intros Hload Hlen Hmagic Hlength Hv1 Hv2.
  rewrite (@unpack_header Object JSON_parse b hdr Hload fuel Hlen Hmagic).
  cbv zeta. rewrite Hlength, Z.eqb_refl. cbn [negb].
  apply Z.eqb_neq in Hv1, Hv2. rewrite Hv1, Hv2. reflexivity.
Qed.

Lemma unsupported_version_after_first_load_witness :
  unpack parseAny 0 (arrayBufferSource exampleVersion3) =
  (Rejected (UnsupportedVersion 3),
   {| buffer := arrayBufferSource exampleVersion3; byteOffset := 12;
      window := exampleVersion3; requests := [(0, 20)] |}).
Proof.
  apply (@unsupported_version_after_first_load string parseAny
           (arrayBufferSource exampleVersion3) exampleVersion3 0%nat).
  - reflexivity.
  - vm_compute. congruence.
  - reflexivity.
  - reflexivity.
  - vm_compute. congruence.
  - vm_compute. congruence.
Defined.

(** C5, as stated, fails.  A 20-byte container of version 3 is rejected
    with "Unsupported version", but bytes beyond the 12-byte header have
    been requested; a container of version 3 that is its 12-byte header
    alone is rejected by the failed first load instead. *)
Lemma unsupported_version_reads_beyond_12 :
  fst (unpack parseAny 0 (arrayBufferSource exampleVersion3))
    = Rejected (UnsupportedVersion 3) /\
  requests (snd (unpack parseAny 0 (arrayBufferSource exampleVersion3)))
    = [(0, 20)] /\
  ~ requestedWithin 12 (snd (unpack parseAny 0 (arrayBufferSource exampleVersion3))) /\
  fst (unpack parseAny 0 (arrayBufferSource (header 3 12)))
    = Rejected SourceReadError.
Proof.
  repeat split; try reflexivity.
  unfold requestedWithin. intros H.
  change (requests (snd (unpack parseAny 0 (arrayBufferSource exampleVersion3))))
    with [(0, 20)] in H.
  inversion H as [|? ? H1 _]; subst. cbn [fst snd] in H1. lia.
Qed.

(** C7, as the code has it.  When the first 20 bytes can be loaded and the
    magic is right, a declared total length that differs from the buffer's
    [byteLength] is rejected with "Length in header does not match actual
    data length".  The [byteLength] is a number whenever the header is
    checked, so the comparison is made for every buffer. *)
Theorem length_mismatch_after_first_load (Object : Type)
    (JSON_parse : string -> option Object) (b : IDataBuffer)
    (hdr : list byte) (fuel : nat) :
  readAsync b 0 20 = Some hdr ->
  12 <= len hdr ->
  getUint32 (slice hdr 0 4) = Binary.Magic ->
  getUint32 (slice hdr 8 4) <> byteLength b ->
  unpack JSON_parse fuel b =
  (Rejected (LengthMismatch (getUint32 (slice hdr 8 4)) (byteLength b)),
   {| buffer := b; byteOffset := 12; window := hdr; requests := [(0, 20)] |}).
Proof.
  intros Hload Hlen Hmagic Hlength.
  rewrite (@unpack_header Object JSON_parse b hdr Hload fuel Hlen Hmagic).
  cbv zeta. apply Z.eqb_neq in Hlength. rewrite Hlength. reflexivity.
Qed.

Lemma length_mismatch_after_first_load_witness :
  unpack parseAny 0 (arrayBufferSource exampleWrongLength) =
  (Rejected (LengthMismatch 99 20),
   {| buffer := arrayBufferSource exampleWrongLength; byteOffset := 12;
      window := exampleWrongLength; requests := [(0, 20)] |}).
Proof.
  apply (@length_mismatch_after_first_load string parseAny
           (arrayBufferSource exampleWrongLength) exampleWrongLength 0%nat).
  - reflexivity.
  - vm_compute. congruence.
  - reflexivity.
  - vm_compute. congruence.
Defined.

(** C7, as stated, fails.  A 16-byte source with the right magic and a
    declared length of 99, which is not its length, is not rejected for
    the length: the first load, of 20 bytes, fails. *)
Lemma length_check_counterexample :
  getUint32 (slice (header 2 99 ++ le32 0) 0 4) = Binary.Magic /\
  getUint32 (slice (header 2 99 ++ le32 0) 8 4)
    <> byteLength (arrayBufferSource (header 2 99 ++ le32 0)) /\
  fst (unpack parseAny 0 (arrayBufferSource (header 2 99 ++ le32 0)))
    = Rejected SourceReadError /\
  fst (unpack parseAny 0 (arrayBufferSource (header 2 99 ++ le32 0)))
    <> Rejected (LengthMismatch 99 16).
Proof.
  repeat split; try reflexivity.
  - vm_compute. congruence.
  - vm_compute. congruence.
Qed.

(** ** Legacy containers *)

Section LegacyContainer.

Variable Object : Type.
Variable JSON_parse : string -> option Object.
Variable b : IDataBuffer.
Variable text body : list byte.
Variable parsed : Object.
Hypothesis Hserves : serves b (legacy text body).
Hypothesis Hsize : len (legacy text body) < 2 ^ 32.
Hypothesis Hparse : JSON_parse (string_of_list_byte text) = Some parsed.

Lemma legacy_text : slice (legacy text body) 20 (len text) = text.
Proof.
  destruct (legacy_fields text body) as (_ & _ & _ & _ & _ & Hskip).
  exact (slice_of_skipn _ _ _ _ Hskip).
Qed.

(** The run up to the content. *)
Lemma unpack_legacy_start (fuel : nat) :
  unpack JSON_parse fuel b =
  _unpackBinaryV1Async JSON_parse (state b (legacy text body) 12 20 [(0, 20)]).
Proof.
  destruct (legacy_fields text body) as (Hmagic & Hver & Htotal & _).
  pose proof (len_legacy text body) as Hl.
  pose proof (len_nonneg text). pose proof (len_nonneg body).
  rewrite (unpack_served JSON_parse fuel Hserves)
    by (lia || (rewrite Hmagic; reflexivity)).
  cbv zeta. rewrite Hver, Htotal, getUint32_le32 by lia.
  rewrite Z.eqb_refl. reflexivity.
Qed.

(** The legacy strategy up to the read of the content: [bodyLength] is
    taken while the cursor is still in front of the content. *)
Lemma unpackBinaryV1_to_content (k : Z) q :
  20 <= k <= len (legacy text body) ->
  _unpackBinaryV1Async JSON_parse (state b (legacy text body) 12 k q) =
  (let bodyLength := len (legacy text body) - 20 in
   text <- readString (len text) ;;
   parsed <- _parseJson JSON_parse text ;;
   let data := {| json := parsed; bin := None |} in
   if negb (bodyLength =? 0)
   then
     startByteOffset <- getByteOffset ;;
     ret {| json := json data;
            bin := Some (binView b startByteOffset bodyLength) |}
   else ret data) (state b (legacy text body) 20 k q).
Proof.
  intros Hk.
  destruct (legacy_fields text body) as (_ & _ & _ & Hlen & Hfmt & _).
  pose proof (len_legacy text body) as Hl.
  pose proof (len_nonneg text). pose proof (len_nonneg body).
  unfold _unpackBinaryV1Async.
  run_step readUint32_state. rewrite Hlen, getUint32_le32 by lia.
  change (12 + 4) with 16.
  run_step readUint32_state. rewrite Hfmt.
  change (getUint32 (le32 ContentFormat.JSON)) with ContentFormat.JSON.
  change (negb (ContentFormat.JSON =? ContentFormat.JSON)) with false. cbv iota.
  change (16 + 4) with 20.
  rewrite bind_run, getBuffer_state. cbv beta iota.
  rewrite bind_run, getByteOffset_state. cbv beta iota.
  destruct Hserves as [Hbl _]. rewrite Hbl. reflexivity.
Qed.

(** With the content in the window the legacy strategy resolves, and the
    [byteLength] of [bin] counts the content as well as the body. *)
Lemma unpackBinaryV1_loaded (k : Z) q :
  20 + len text <= k <= len (legacy text body) ->
  _unpackBinaryV1Async JSON_parse (state b (legacy text body) 12 k q) =
  (Resolved {| json := parsed;
               bin := if len text + len body =? 0 then None
                      else Some (binView b (20 + len text) (len text + len body)) |},
   state b (legacy text body) (20 + len text) k q).
Proof.
  intros Hk.
  pose proof (len_legacy text body) as Hl.
  pose proof (len_nonneg text). pose proof (len_nonneg body).
  rewrite unpackBinaryV1_to_content by lia. cbv zeta.
  run_step readString_state. rewrite legacy_text.
  rewrite bind_run. unfold _parseJson. rewrite Hparse.
  unfold ret at 1. cbv beta iota.
  replace (len (legacy text body) - 20) with (len text + len body) by lia.
  destruct (len text + len body =? 0); reflexivity.
Qed.

(** As [unpack] runs it, the content is read without having been loaded. *)
Lemma unpack_legacy_fault (fuel : nat) :
  0 < len text ->
  unpack JSON_parse fuel b =
  (Rejected WindowFault, state b (legacy text body) 20 20 [(0, 20)]).
Proof.
  intros Ht.
  pose proof (len_legacy text body) as Hl. pose proof (len_nonneg body).
  rewrite unpack_legacy_start, unpackBinaryV1_to_content by lia. cbv zeta.
  rewrite bind_run, readString_fault by lia. reflexivity.
Qed.

End LegacyContainer.

(** C1, against the code.  For a legacy container with content [text]
    (N bytes) and body (M bytes): [unpack] reads the content without
    loading it, so with N > 0 it ends in a window fault; and the legacy
    strategy, run with the content in the window, resolves with a [bin]
    that starts after the content but whose [byteLength] is N + M, not M
    ([bin] is [null] only when N + M = 0).  With N = 0 [unpack] resolves
    with a [bin] of [byteLength] M. *)
Theorem legacy_bin_counts_content (Object : Type)
    (JSON_parse : string -> option Object) (b : IDataBuffer)
    (text body : list byte) (parsed : Object) (fuel : nat) :
  serves b (legacy text body) ->
  len (legacy text body) < 2 ^ 32 ->
  JSON_parse (string_of_list_byte text) = Some parsed ->
  (0 < len text -> fst (unpack JSON_parse fuel b) = Rejected WindowFault) /\
  (forall k q, 20 + len text <= k <= len (legacy text body) ->
     fst (_unpackBinaryV1Async JSON_parse (state b (legacy text body) 12 k q)) =
     Resolved {| json := parsed;
                 bin := if len text + len body =? 0 then None
                        else Some (binView b (20 + len text)
                                           (len text + len body)) |}) /\
  (len text = 0 ->
     fst (unpack JSON_parse fuel b) =
     Resolved {| json := parsed;
                 bin := if len body =? 0 then None
                        else Some (binView b 20 (len body)) |}).
Proof.
  intros Hserves Hsize Hparse. repeat split.
  - intros Ht.
    rewrite (@unpack_legacy_fault Object JSON_parse b text body Hserves Hsize fuel Ht).
    reflexivity.
  - intros k q Hk.
    rewrite (@unpackBinaryV1_loaded Object JSON_parse b text body parsed
               Hserves Hsize Hparse k q Hk).
    reflexivity.
  - intros Ht.
    pose proof (len_legacy text body) as Hl. pose proof (len_nonneg body).
    rewrite (@unpack_legacy_start Object JSON_parse b text body Hserves Hsize fuel).
    rewrite (@unpackBinaryV1_loaded Object JSON_parse b text body parsed
               Hserves Hsize Hparse 20 [(0, 20)] ltac:(lia)).
    rewrite Ht. reflexivity.
Qed.

Lemma legacy_bin_counts_content_witness :
  fst (unpack parseAny 0 (arrayBufferSource (legacy exampleText exampleBody)))
    = Rejected WindowFault /\
  fst (_unpackBinaryV1Async parseAny
         (state (arrayBufferSource (legacy exampleText exampleBody))
                (legacy exampleText exampleBody) 12 26 [(0, 26)]))
    = Resolved {| json := "{}"%string;
                  bin := Some (binView (arrayBufferSource (legacy exampleText exampleBody))
                                       22 6) |}.
Proof.
  destruct (@legacy_bin_counts_content string parseAny
              (arrayBufferSource (legacy exampleText exampleBody))
              exampleText exampleBody "{}"%string 0%nat
              (arrayBufferSource_serves _)
              ltac:(vm_compute; reflexivity) eq_refl) as (H1 & H2 & _).
  split.
  - apply H1. vm_compute. reflexivity.
  - apply (H2 26 [(0, 26)]). vm_compute. split; congruence.
Defined.

(** ** Version strings *)

Module VersionFacts.
Import Version.

Lemma append_empty_r (s : string) : (s ++ "")%string = s.
Proof. induction s as [|c s IH]; simpl; [reflexivity | rewrite IH; reflexivity]. Qed.

Lemma digits_noLeadingDigit (s : string) :
  noLeadingDigit s -> digits s = (EmptyString, s).
Proof.
  destruct s as [|c s]; simpl; intros H; [reflexivity|].
  rewrite H. reflexivity.
Qed.

(** The longest prefix of digits of [d ++ rest], for digits [d]. *)
Lemma digits_app (d rest : string) :
  forallb isDigit (list_ascii_of_string d) = true ->
  digits (d ++ rest) = ((d ++ fst (digits rest))%string, snd (digits rest)).
Proof.
  induction d as [|c d IH]; simpl; intros H.
  - destruct (digits rest); reflexivity.
  - apply andb_true_iff in H as [Hc H]. rewrite Hc, (IH H). reflexivity.
Qed.

(** What [digits] splits off is digits, and nothing is lost. *)
Lemma digits_spec (s : string) :
  forall d r, digits s = (d, r) ->
    s = (d ++ r)%string /\ forallb isDigit (list_ascii_of_string d) = true.
Proof.
  induction s as [|c s IH]; simpl; intros d r H.
  - inversion H; subst. split; reflexivity.
  - destruct (isDigit c) eqn:Ec.
    + destruct (digits s) as [d' r'] eqn:E. inversion H; subst.
      destruct (IH _ _ eq_refl) as [Hs Hd]. split.
      * simpl. rewrite <- Hs. reflexivity.
      * simpl. rewrite Ec, Hd. reflexivity.
    + inversion H; subst. split; reflexivity.
Qed.

Lemma matchVersion_pattern (d1 d2 rest : string) :
  numeral d1 -> numeral d2 ->
  matchVersion (d1 ++ "." ++ d2 ++ rest) =
  Some (d1, (d2 ++ fst (digits rest))%string).
Proof.
  intros [Hne1 Hd1] [Hne2 Hd2]. unfold matchVersion.
  rewrite digits_app by assumption.
  change (digits ("." ++ d2 ++ rest)) with (EmptyString, ("." ++ d2 ++ rest)%string).
  cbn [fst snd]. rewrite append_empty_r.
  destruct d1 as [|c1 d1']; [congruence|].
  change ("." ++ d2 ++ rest)%string with (String "."%char (d2 ++ rest)).
  cbv iota. rewrite digits_app by assumption.
  destruct d2 as [|c2 d2']; [congruence|]. reflexivity.
Qed.

(** Where the pattern matches, the text starts with the two groups. *)
Lemma matchVersion_spec (version m1 m2 : string) :
  matchVersion version = Some (m1, m2) ->
  numeral m1 /\ numeral m2 /\
  exists rest, version = (m1 ++ "." ++ m2 ++ rest)%string.
Proof.
  unfold matchVersion.
  destruct (digits version) as [d1 rest1] eqn:E1.
  destruct d1 as [|c1 d1]; [discriminate|].
  destruct rest1 as [|c rest2]; [discriminate|].
  destruct (Ascii.eqb c "."%char) eqn:Ec.
  2:{ destruct c as [[] [] [] [] [] [] [] []]; try discriminate. }
  apply Ascii.eqb_eq in Ec. subst c.
  destruct (digits rest2) as [d2 rest3] eqn:E2.
  destruct d2 as [|c2 d2]; [discriminate|].
  intros H. inversion H; subst.
  destruct (digits_spec _ E1) as [Hv Hd1].
  destruct (digits_spec _ E2) as [Hr Hd2].
  repeat split; try discriminate; try assumption.
  exists rest3. rewrite Hv, Hr. reflexivity.
Qed.

Lemma parseVersion_match (version : string) :
  _parseVersion version =
  match matchVersion version with
  | None => None
  | Some (m1, m2) => Some {| major := parseInt m1; minor := parseInt m2 |}
  end.
Proof.
  unfold _parseVersion.
  destruct (version =? "1.0")%string eqn:E1.
  - apply String.eqb_eq in E1. subst. reflexivity.
  - destruct (version =? "1.0.1")%string eqn:E2.
    + apply String.eqb_eq in E2. subst. reflexivity.
    + reflexivity.
Qed.

End VersionFacts.

(** C9.  [_parseVersion] gives [{1, 0}] for ["1.0"] and for ["1.0.1"];
    for a text that starts with digits, a dot and digits it gives the two
    numbers (so ["2.0"] gives [{2, 0}]), for numbers below 2^53, which a
    JavaScript number holds exactly; for any text that does not start
    that way, such as ["garbage"], it gives [null]. *)
Theorem parseVersion_spec :
  Version._parseVersion "1.0" = Some {| Version.major := 1; Version.minor := 0 |} /\
  Version._parseVersion "1.0.1" = Some {| Version.major := 1; Version.minor := 0 |} /\
  Version._parseVersion "2.0" = Some {| Version.major := 2; Version.minor := 0 |} /\
  Version._parseVersion "garbage" = None /\
  (forall d1 d2 rest : string,
     Version.numeral d1 -> Version.numeral d2 -> Version.noLeadingDigit rest ->
     Version.parseInt d1 < 2 ^ 53 -> Version.parseInt d2 < 2 ^ 53 ->
     Version._parseVersion (d1 ++ "." ++ d2 ++ rest) =
     Some {| Version.major := Version.parseInt d1;
             Version.minor := Version.parseInt d2 |}) /\
  (forall version : string,
     (forall d1 d2 rest : string,
        Version.numeral d1 -> Version.numeral d2 ->
        version <> (d1 ++ "." ++ d2 ++ rest)%string) ->
     Version._parseVersion version = None).
Proof.
  repeat split; try reflexivity.
  - intros d1 d2 rest H1 H2 Hrest _ _.
    rewrite VersionFacts.parseVersion_match.
    rewrite VersionFacts.matchVersion_pattern by assumption.
    rewrite VersionFacts.digits_noLeadingDigit by assumption. cbn [fst].
    rewrite VersionFacts.append_empty_r. reflexivity.
  - intros version Hno.
    rewrite VersionFacts.parseVersion_match.
    destruct (Version.matchVersion version) as [[m1 m2]|] eqn:E; [|reflexivity].
    exfalso.
    destruct (VersionFacts.matchVersion_spec _ E) as (H1 & H2 & rest & Hv).
    exact (Hno m1 m2 rest H1 H2 Hv).
Qed.

Lemma parseVersion_spec_witness :
  Version._parseVersion "12.34-beta" =
  Some {| Version.major := 12; Version.minor := 34 |}.
Proof.
  destruct parseVersion_spec as (_ & _ & _ & _ & Hpattern & _).
  apply (Hpattern "12" "34" "-beta")%string.
  - split; [discriminate | reflexivity].
  - split; [discriminate | reflexivity].
  - reflexivity.
  - vm_compute. reflexivity.
  - vm_compute. reflexivity.
Defined.

(** * Further properties *)

(** ** Comparing versions *)

(** X1.  Swapping the arguments of [_compareVersion] negates the
    result. *)
Theorem compareVersion_antisym (a b : Version.t) :
  _compareVersion b a = - _compareVersion a b.
Proof.
  unfold _compareVersion.
  destruct (Z.gtb_spec (Version.major a) (Version.major b));
    destruct (Z.ltb_spec (Version.major a) (Version.major b));
    destruct (Z.gtb_spec (Version.major b) (Version.major a));
    destruct (Z.ltb_spec (Version.major b) (Version.major a));
    try lia;
    destruct (Z.gtb_spec (Version.minor a) (Version.minor b));
    destruct (Z.ltb_spec (Version.minor a) (Version.minor b));
    destruct (Z.gtb_spec (Version.minor b) (Version.minor a));
    destruct (Z.ltb_spec (Version.minor b) (Version.minor a));
    lia.
Qed.

(** X2.  [_compareVersion] gives 0 exactly for equal versions. *)
Theorem compareVersion_zero_iff (a b : Version.t) :
  _compareVersion a b = 0 <-> a = b.
Proof.
  unfold _compareVersion. destruct a as [ma na], b as [mb nb].
  cbn [Version.major Version.minor].
  destruct (Z.gtb_spec ma mb) as [H1|H1];
    [split; [lia | intros E; inversion E; lia]|].
  destruct (Z.ltb_spec ma mb) as [H2|H2];
    [split; [lia | intros E; inversion E; lia]|].
  destruct (Z.gtb_spec na nb) as [H3|H3];
    [split; [lia | intros E; inversion E; lia]|].
  destruct (Z.ltb_spec na nb) as [H4|H4];
    [split; [lia | intros E; inversion E; lia]|].
  split; [intros _; f_equal; lia | reflexivity].
Qed.

Lemma compareVersion_zero_iff_witness :
  {| Version.major := 2; Version.minor := 1 |}
  = {| Version.major := 2; Version.minor := 1 |}.
Proof.
  apply (proj1 (compareVersion_zero_iff
                  {| Version.major := 2; Version.minor := 1 |}
                  {| Version.major := 2; Version.minor := 1 |})).
  reflexivity.
Defined.

Lemma compareVersion_le_iff (a b : Version.t) :
  _compareVersion a b <= 0 <->
  Version.major a < Version.major b \/
  (Version.major a = Version.major b /\ Version.minor a <= Version.minor b).
Proof.
  unfold _compareVersion.
  destruct (Z.gtb_spec (Version.major a) (Version.major b)); [lia|].
  destruct (Z.ltb_spec (Version.major a) (Version.major b)); [lia|].
  destruct (Z.gtb_spec (Version.minor a) (Version.minor b)); [lia|].
  destruct (Z.ltb_spec (Version.minor a) (Version.minor b)); lia.
Qed.

(** X3.  The order that [_compareVersion] decides is transitive: if [a]
    is not above [b] and [b] is not above [c], then [a] is not above
    [c]. *)
Theorem compareVersion_trans (a b c : Version.t) :
  _compareVersion a b <= 0 -> _compareVersion b c <= 0 ->
  _compareVersion a c <= 0.
Proof. rewrite !compareVersion_le_iff. lia. Qed.

Lemma compareVersion_trans_witness :
  _compareVersion {| Version.major := 1; Version.minor := 9 |}
                  {| Version.major := 2; Version.minor := 1 |} <= 0.
Proof.
  apply (@compareVersion_trans
           {| Version.major := 1; Version.minor := 9 |}
           {| Version.major := 2; Version.minor := 0 |}
           {| Version.major := 2; Version.minor := 1 |}).
  - vm_compute. congruence.
  - vm_compute. congruence.
Defined.

(** ** Choosing the loader *)

Lemma parseInt_nonneg (s : string) :
  forallb Version.isDigit (list_ascii_of_string s) = true ->
  0 <= Version.parseInt s.
Proof.
  unfold Version.parseInt.
  assert (H : forall l acc, 0 <= acc -> forallb Version.isDigit l = true ->
            0 <= fold_left (fun acc c => 10 * acc + (Z.of_N (N_of_ascii c) - 48)) l acc).
  { induction l as [|c l IH]; intros acc Hacc Hl; [exact Hacc|].
    cbn [forallb] in Hl. apply andb_true_iff in Hl as [Hc Hl].
    cbn [fold_left]. apply IH; [|exact Hl].
    unfold Version.isDigit in Hc. cbv zeta in Hc.
    apply andb_true_iff in Hc as [Hc1 Hc2]. apply Z.leb_le in Hc1. lia. }
  intros Hs. apply H; [lia | exact Hs].
Qed.

Lemma parseVersion_nonneg (version : string) (v : Version.t) :
  Version._parseVersion version = Some v ->
  0 <= Version.major v /\ 0 <= Version.minor v.
Proof.
  rewrite VersionFacts.parseVersion_match.
  destruct (Version.matchVersion version) as [[m1 m2]|] eqn:E; [|discriminate].
  intros H. inversion H; subst. cbn [Version.major Version.minor].
  destruct (VersionFacts.matchVersion_spec _ E) as ([_ H1] & [_ H2] & _).
  split; apply parseInt_nonneg; assumption.
Qed.

Lemma compareVersion_gt_iff (a b : Version.t) :
  (_compareVersion a b >? 0) = true <->
  Version.major a > Version.major b \/
  (Version.major a = Version.major b /\ Version.minor a > Version.minor b).
Proof.
  unfold _compareVersion.
  destruct (Z.gtb_spec (Version.major a) (Version.major b)) as [H1|H1];
    [split; [lia | reflexivity]|].
  destruct (Z.ltb_spec (Version.major a) (Version.major b)) as [H2|H2];
    [split; [discriminate | lia]|].
  destruct (Z.gtb_spec (Version.minor a) (Version.minor b)) as [H3|H3];
    [split; [lia | reflexivity]|].
  destruct (Z.ltb_spec (Version.minor a) (Version.minor b)) as [H4|H4];
    split; (discriminate || lia).
Qed.

Section GetLoaderFacts.

Import GetLoader.

Variable IGLTFLoader : Type.
Variable create1 create2 : option IGLTFLoader.

(** X4.  [_getLoader] returns a loader exactly when the asset version
    parses, its major number is 1 or 2 and the loader of that number is
    registered, and the minimum version, if the asset has one, parses and
    is at most 2.0; the loader returned is the one of the major number. *)
Theorem getLoader_returns_iff (asset : Asset) (loader : IGLTFLoader) :
  _getLoader create1 create2 asset = inr loader <->
  exists v,
    Version._parseVersion (text (version asset)) = Some v /\
    ((Version.major v = 1 /\ create1 = Some loader) \/
     (Version.major v = 2 /\ create2 = Some loader)) /\
    (forall minText, minVersion asset = Some minText ->
       exists mv, Version._parseVersion minText = Some mv /\
         (Version.major mv < 2 \/
          (Version.major mv = 2 /\ Version.minor mv = 0))).
Proof.
  unfold _getLoader, createLoaders. split.
  - destruct (Version._parseVersion (text (version asset))) as [v|] eqn:Ev;
      [|discriminate].
    cbv zeta. intros H. exists v. split; [reflexivity|].
    destruct (minVersion asset) as [minText|] eqn:Em.
    + destruct (Version._parseVersion minText) as [mv|] eqn:Emv; [|discriminate].
      destruct (_compareVersion mv {| Version.major := 2; Version.minor := 0 |} >? 0)
        eqn:Ec; [discriminate|].
      split.
      * destruct (Z.eqb_spec (Version.major v) 1) as [H1|H1].
        { left. destruct create1; [inversion H; subst; auto | discriminate]. }
        destruct (Z.eqb_spec (Version.major v) 2) as [H2|H2]; [|discriminate].
        right. destruct create2; [inversion H; subst; auto | discriminate].
      * intros t Ht. inversion Ht; subst t. exists mv. split; [exact Emv|].
        destruct (parseVersion_nonneg _ Emv) as [_ Hminor].
        assert (Hn : ~ (Version.major mv > 2 \/
                        (Version.major mv = 2 /\ Version.minor mv > 0))).
        { intros Hgt.
          apply (compareVersion_gt_iff mv {| Version.major := 2; Version.minor := 0 |})
            in Hgt. congruence. }
        lia.
    + split; [|discriminate].
      destruct (Z.eqb_spec (Version.major v) 1) as [H1|H1].
      { left. destruct create1; [inversion H; subst; auto | discriminate]. }
      destruct (Z.eqb_spec (Version.major v) 2) as [H2|H2]; [|discriminate].
      right. destruct create2; [inversion H; subst; auto | discriminate].
  - intros (v & Ev & Hsel & Hmin). rewrite Ev. cbv zeta.
    assert (Hchecked :
      match minVersion asset with
      | Some minText =>
          match Version._parseVersion minText with
          | Some minVersion =>
              if _compareVersion minVersion
                   {| Version.major := 2; Version.minor := 0 |} >? 0
              then Some IncompatibleMinimumVersion else None
          | None => Some InvalidMinimumVersion
          end
      | None => None
      end = None).
    { destruct (minVersion asset) as [minText|]; [|reflexivity].
      destruct (Hmin minText eq_refl) as (mv & Emv & Hle). rewrite Emv.
      destruct (_compareVersion mv {| Version.major := 2; Version.minor := 0 |} >? 0)
        eqn:Ec; [|reflexivity].
      apply compareVersion_gt_iff in Ec. cbn [Version.major Version.minor] in Ec. lia. }
    rewrite Hchecked.
    destruct Hsel as [[H1 Hc]|[H2 Hc]].
    + rewrite H1, Hc. reflexivity.
    + rewrite H2, Hc. reflexivity.
Qed.

(** X5.  A minimum version above 2.0 is refused for every asset whose
    version parses, the assets of version 1 included: [_getLoader] throws
    "Incompatible minimum version". *)
Theorem getLoader_minimum_above_2_0 (asset : Asset) (v mv : Version.t)
    (minText : string) :
  Version._parseVersion (text (version asset)) = Some v ->
  minVersion asset = Some minText ->
  Version._parseVersion minText = Some mv ->
  (Version.major mv > 2 \/ (Version.major mv = 2 /\ Version.minor mv > 0)) ->
  _getLoader create1 create2 asset = inl IncompatibleMinimumVersion.
Proof.
  intros Ev Em Emv Hgt. unfold _getLoader. rewrite Ev, Em, Emv. cbv zeta.
  apply (compareVersion_gt_iff mv {| Version.major := 2; Version.minor := 0 |})
    in Hgt.
  rewrite Hgt. reflexivity.
Qed.

End GetLoaderFacts.

Lemma getLoader_returns_iff_witness :
  GetLoader._getLoader (Some 1%nat) (Some 2%nat)
    {| GetLoader.version := Some "2.1"%string;
       GetLoader.minVersion := Some "2.0"%string |} = inr 2%nat.
Proof.
  apply (proj2 (@getLoader_returns_iff nat (Some 1%nat) (Some 2%nat)
                  {| GetLoader.version := Some "2.1"%string;
                     GetLoader.minVersion := Some "2.0"%string |} 2%nat)).
  exists {| Version.major := 2; Version.minor := 1 |}.
  split; [reflexivity|]. split; [right; split; reflexivity|].
  intros minText H. inversion H; subst.
  exists {| Version.major := 2; Version.minor := 0 |}.
  split; [reflexivity | right; split; reflexivity].
Defined.

Lemma getLoader_minimum_above_2_0_witness :
  GetLoader._getLoader (Some 1%nat) (Some 2%nat)
    {| GetLoader.version := Some "1.0"%string;
       GetLoader.minVersion := Some "2.1"%string |}
  = inl GetLoader.IncompatibleMinimumVersion.
Proof.
  apply (@getLoader_minimum_above_2_0 nat (Some 1%nat) (Some 2%nat)
           {| GetLoader.version := Some "1.0"%string;
              GetLoader.minVersion := Some "2.1"%string |}
           {| Version.major := 1; Version.minor := 0 |}
           {| Version.major := 2; Version.minor := 1 |} "2.1"%string).
  - reflexivity.
  - reflexivity.
  - reflexivity.
  - right. split; [reflexivity | vm_compute; reflexivity].
Defined.

(** ** The log *)

Module LogFacts.
Import Log.

Lemma substring_spaces (m : nat) :
  forall n, String.substring 0 n (spaces m) = spaces (Nat.min n m).
Proof.
  induction m as [|m IH]; intros n.
  - destruct n; reflexivity.
  - destruct n as [|n]; [reflexivity|].
    cbn [spaces String.substring Nat.min]. rewrite IH. reflexivity.
Qed.

Lemma call_consistent (c : Call) (st : t) :
  consistent st -> consistent (call c st).
Proof.
  unfold consistent. destruct st as [level flag method out].
  cbn [_log _loggingEnabled]. intros H.
  destruct c as [value|message|message|]; cbn [call].
  - unfold set_loggingEnabled. cbn [_loggingEnabled].
    destruct (Bool.eqb flag value); [exact H | reflexivity].
  - unfold log. cbn [_log]. destruct method; exact H.
  - unfold _logOpen, log. cbn [_log]. destruct method; exact H.
  - exact H.
Qed.

Lemma calls_consistent (cs : list Call) :
  forall st, consistent st -> consistent (calls cs st).
Proof.
  unfold calls.
  induction cs as [|c cs IH]; intros st H; [exact H|].
  cbn [fold_left]. apply IH, call_consistent, H.
Qed.

Lemma call_level (c : Call) (st : t) :
  _logIndentLevel (call c st) =
  _logIndentLevel st + opens [c] - closes [c].
Proof.
  destruct c as [value|message|message|]; cbn [call].
  - unfold set_loggingEnabled.
    destruct (Bool.eqb (_loggingEnabled st) value); cbn; lia.
  - unfold log, _logDisabled. destruct (_log st); cbn; lia.
  - unfold _logOpen, log, _logDisabled. destruct (_log st); cbn; lia.
  - cbn. lia.
Qed.

Lemma opens_cons (c : Call) (cs : list Call) :
  opens (c :: cs) = opens [c] + opens cs.
Proof. unfold opens. destruct c; cbn [filter List.length]; lia. Qed.

Lemma closes_cons (c : Call) (cs : list Call) :
  closes (c :: cs) = closes [c] + closes cs.
Proof. unfold closes. destruct c; cbn [filter List.length]; lia. Qed.

End LogFacts.

(** X6.  After any calls on a fresh loader, a message is written to the
    console exactly when [loggingEnabled] is on: with the flag on, [_log]
    appends the message behind its indentation; with the flag off it
    leaves the console as it is. *)
Theorem log_writes_iff_enabled (cs : list Log.Call) (message : string) :
  let st := Log.calls cs Log.initial in
  Log.console (Log.log message st) =
  if Log._loggingEnabled st
  then Log.console st
       ++ [(Log.substr0 Log._logSpaces (Log._logIndentLevel st * 2) ++ message)%string]
  else Log.console st.
Proof.
  cbv zeta.
  pose proof (@LogFacts.calls_consistent cs Log.initial eq_refl) as H.
  unfold Log.consistent in H. unfold Log.log. rewrite H.
  destruct (Log._loggingEnabled (Log.calls cs Log.initial)); reflexivity.
Qed.

(** X7.  A logged message is indented by two spaces a level, by 32 spaces
    at most (from level 16 on), and not at all at a level of 0 or
    below. *)
Theorem logEnabled_indentation (message : string) (st : Log.t) :
  Log.console (Log._logEnabled message st) =
  Log.console st
  ++ [(Log.spaces (Z.to_nat (Z.min (2 * Log._logIndentLevel st) 32))
       ++ message)%string].
Proof.
  unfold Log._logEnabled, Log.substr0. cbn [Log.console].
  change Log._logSpaces with (Log.spaces 32).
  rewrite LogFacts.substring_spaces.
  replace (Nat.min (Z.to_nat (Log._logIndentLevel st * 2)) 32)
    with (Z.to_nat (Z.min (2 * Log._logIndentLevel st) 32)) by lia.
  reflexivity.
Qed.

(** X8.  The indent level after any calls is the level before, plus the
    number of [_logOpen] calls, minus the number of [_logClose] calls,
    whether logging is enabled or not. *)
Theorem logIndentLevel_counts (cs : list Log.Call) (st : Log.t) :
  Log._logIndentLevel (Log.calls cs st) =
  Log._logIndentLevel st + Log.opens cs - Log.closes cs.
Proof.
  unfold Log.calls. revert st.
  induction cs as [|c cs IH]; intros st.
  - cbn. lia.
  - cbn [fold_left]. rewrite IH, LogFacts.call_level.
    rewrite (LogFacts.opens_cons c cs), (LogFacts.closes_cons c cs). lia.
Qed.

(** ** The unpacker over any bytes *)

Lemma val_nonneg (x : byte) : 0 <= val x.
Proof. unfold val. lia. Qed.

Lemma getUint32_nonneg (bs : list byte) : 0 <= getUint32 bs.
Proof.
  unfold getUint32.
  destruct bs as [|b0 [|b1 [|b2 [|b3 [|b4 bs]]]]]; try lia.
  pose proof (val_nonneg b0). pose proof (val_nonneg b1).
  pose proof (val_nonneg b2). pose proof (val_nonneg b3). lia.
Qed.

Section AnyBytes.

Variable Object : Type.
Variable JSON_parse : string -> option Object.
Variable b : IDataBuffer.
Variable bytes : list byte.
Hypothesis Hserves : serves b bytes.

(** One turn of the chunk loop, with the chunk header in the window. *)
Lemma readAsync_turn (fuel : nat) (data : IGLTFLoaderData Object) (p k : Z) q :
  0 <= p -> p + 8 <= k <= len bytes ->
  _unpackBinaryV2Async_readAsync (S fuel) data (state b bytes p k q) =
  let chunkLength := getUint32 (slice bytes p 4) in
  let chunkFormat := getUint32 (slice bytes (p + 4) 4) in
  if chunkFormat =? ChunkFormat.JSON
  then (Rejected UnexpectedJSONChunk, state b bytes (p + 8) k q)
  else
    let data' :=
      if chunkFormat =? ChunkFormat.BIN
      then {| json := json data;
              bin := Some (binView b (p + 8) chunkLength) |}
      else data in
    if p + 8 + chunkLength =? len bytes
    then (Resolved data', state b bytes (p + 8 + chunkLength) k q)
    else (loadAsync 8 ;; _unpackBinaryV2Async_readAsync fuel data')
           (state b bytes (p + 8 + chunkLength) k q).
Proof.
  intros Hp Hk. cbv zeta.
  cbn [_unpackBinaryV2Async_readAsync].
  run_step readUint32_state.
  run_step readUint32_state.
  replace (p + 4 + 4) with (p + 8) by lia.
  rewrite bind_run.
  destruct (getUint32 (slice bytes (p + 4) 4) =? ChunkFormat.JSON);
    [reflexivity|].
  assert (Hstep :
    (if getUint32 (slice bytes (p + 4) 4) =? ChunkFormat.BIN
     then
       buffer <- getBuffer ;;
       startByteOffset <- getByteOffset ;;
       skipBytes (getUint32 (slice bytes p 4)) ;;
       ret {| json := json data;
              bin := Some (binView buffer startByteOffset
                                   (getUint32 (slice bytes p 4))) |}
     else skipBytes (getUint32 (slice bytes p 4)) ;; ret data)
      (state b bytes (p + 8) k q)
    = (Resolved (if getUint32 (slice bytes (p + 4) 4) =? ChunkFormat.BIN
                 then {| json := json data;
                         bin := Some (binView b (p + 8)
                                              (getUint32 (slice bytes p 4))) |}
                 else data),
       state b bytes (p + 8 + getUint32 (slice bytes p 4)) k q)).
  { destruct (getUint32 (slice bytes (p + 4) 4) =? ChunkFormat.BIN); reflexivity. }
  rewrite Hstep. cbv beta iota.
  rewrite bind_run, getBuffer_state. cbv beta iota.
  rewrite bind_run, getByteOffset_state. cbv beta iota.
  destruct Hserves as [Hbl _]. rewrite Hbl.
  destruct (p + 8 + getUint32 (slice bytes p 4) =? len bytes); reflexivity.
Qed.

(** The chunked strategy up to the load of the JSON chunk. *)
Lemma unpackBinaryV2_start (fuel : nat) q :
  20 <= len bytes ->
  _unpackBinaryV2Async JSON_parse fuel (state b bytes 12 20 q) =
  let chunkLength := getUint32 (slice bytes 12 4) in
  let chunkFormat := getUint32 (slice bytes 16 4) in
  if negb (chunkFormat =? ChunkFormat.JSON)
  then (Rejected FirstChunkNotJSON, state b bytes 20 20 q)
  else if 20 + chunkLength =? len bytes
  then
    (loadAsync chunkLength ;;
     text <- readString chunkLength ;;
     parsed <- _parseJson JSON_parse text ;;
     ret {| json := parsed; bin := None |}) (state b bytes 20 20 q)
  else
    (loadAsync (chunkLength + 8) ;;
     text <- readString chunkLength ;;
     parsed <- _parseJson JSON_parse text ;;
     _unpackBinaryV2Async_readAsync fuel {| json := parsed; bin := None |})
      (state b bytes 20 20 q).
Proof.
  intros Hlen. cbv zeta. unfold _unpackBinaryV2Async.
  run_step readUint32_state. change (12 + 4) with 16.
  run_step readUint32_state. change (16 + 4) with 20.
  destruct (negb (getUint32 (slice bytes 16 4) =? ChunkFormat.JSON));
    [reflexivity|].
  rewrite bind_run, getBuffer_state. cbv beta iota.
  rewrite bind_run, getByteOffset_state. cbv beta iota.
  destruct Hserves as [Hbl _]. rewrite Hbl.
  destruct (20 + getUint32 (slice bytes 12 4) =? len bytes); reflexivity.
Qed.

(** The legacy strategy up to the read of the content. *)
Lemma unpackBinaryV1_start q :
  20 <= len bytes ->
  _unpackBinaryV1Async JSON_parse (state b bytes 12 20 q) =
  let contentLength := getUint32 (slice bytes 12 4) in
  let contentFormat := getUint32 (slice bytes 16 4) in
  if negb (contentFormat =? ContentFormat.JSON)
  then (Rejected (UnexpectedContentFormat contentFormat), state b bytes 20 20 q)
  else
    (let bodyLength := len bytes - 20 in
     text <- readString contentLength ;;
     parsed <- _parseJson JSON_parse text ;;
     let data := {| json := parsed; bin := None |} in
     if negb (bodyLength =? 0)
     then
       startByteOffset <- getByteOffset ;;
       ret {| json := json data;
              bin := Some (binView b startByteOffset bodyLength) |}
     else ret data) (state b bytes 20 20 q).
Proof.
  intros Hlen. cbv zeta. unfold _unpackBinaryV1Async.
  run_step readUint32_state. change (12 + 4) with 16.
  run_step readUint32_state. change (16 + 4) with 20.
  destruct (negb (getUint32 (slice bytes 16 4) =? ContentFormat.JSON));
    [reflexivity|].
  rewrite bind_run, getBuffer_state. cbv beta iota.
  rewrite bind_run, getByteOffset_state. cbv beta iota.
  destruct Hserves as [Hbl _]. rewrite Hbl. reflexivity.
Qed.

End AnyBytes.

(** ** Chunks of unrecognized format *)

Lemma lastBIN_payload (cs : list chunk) :
  forall p, option_map snd (lastBIN p cs) = lastBINPayload cs.
Proof.
  unfold lastBINPayload.
  induction cs as [|c cs IH]; intros p; [reflexivity|].
  cbn [lastBIN filter]. specialize (IH (p + 8 + len (payload c))).
  destruct (isBIN c).
  - cbn [rev].
    destruct (lastBIN (p + 8 + len (payload c)) cs) as [[s bs]|];
      destruct (rev (filter isBIN cs)) as [|x l];
      cbn [option_map snd app] in IH |- *; congruence.
  - destruct (lastBIN (p + 8 + len (payload c)) cs) as [[s bs]|];
      destruct (rev (filter isBIN cs)) as [|x l];
      cbn [option_map snd] in IH |- *; congruence.
Qed.

Section WalkEnd.

Variable Object : Type.
Variable b : IDataBuffer.
Variable bytes : list byte.
Hypothesis Hserves : serves b bytes.
Hypothesis Hsize : len bytes < 2 ^ 32.

(** Without a second JSON chunk the loop consumes every chunk: it leaves
    the cursor at the end of the buffer. *)
Lemma readAsync_walk_end (cs : list chunk) :
  forall (fuel : nat) (data : IGLTFLoaderData Object) (p k : Z) q,
    cs <> [] -> (List.length cs <= fuel)%nat ->
    formatsInRange cs -> noJSON cs = true ->
    0 <= p -> skipn (Z.to_nat p) bytes = encodeChunks cs ->
    p + 8 <= k <= len bytes ->
    byteOffset (snd (_unpackBinaryV2Async_readAsync fuel data
                       (state b bytes p k q)))
    = len bytes.
Proof.
  induction cs as [|c cs' IH];
    intros fuel data p k q Hne Hfuel Hfmt HnoJSON Hp Hskip Hk; [congruence|].
  destruct fuel as [|fuel]; [simpl in Hfuel; lia|].
  rewrite (readAsync_turn Hserves) by assumption. cbv zeta.
  unfold noJSON in HnoJSON. cbn [forallb] in HnoJSON.
  apply andb_true_iff in HnoJSON as [Hc HnoJSON'].
  apply negb_true_iff in Hc. unfold isJSON in Hc.
  inversion Hfmt as [|? ? Hcr Hfmt']; subst.
  change (encodeChunks (c :: cs')) with (encodeChunk c ++ encodeChunks cs') in Hskip.
  unfold encodeChunk in Hskip. rewrite <- !app_assoc in Hskip.
  pose proof (len_nonneg (payload c)) as HL.
  pose proof (len_nonneg (encodeChunks cs')) as HR.
  pose proof (slice_of_skipn _ _ _ _ Hskip) as E1. rewrite len_le32 in E1.
  pose proof (@skipn_skipn_Z _ _ _ p Hp Hskip) as Hskip2.
  rewrite len_le32 in Hskip2.
  pose proof (slice_of_skipn _ _ _ _ Hskip2) as E2. rewrite len_le32 in E2.
  assert (Hp4 : 0 <= p + 4) by lia.
  pose proof (@skipn_skipn_Z _ _ _ (p + 4) Hp4 Hskip2) as Hskip3.
  rewrite len_le32 in Hskip3. replace (p + 4 + 4) with (p + 8) in Hskip3 by lia.
  assert (Hp8 : 0 <= p + 8) by lia.
  pose proof (@skipn_skipn_Z _ _ _ (p + 8) Hp8 Hskip3) as Hskip4.
  assert (Hlen : len bytes = p + 8 + len (payload c) + len (encodeChunks cs')).
  { assert (Hp8' : 0 <= p + 8 <= len bytes) by lia.
    pose proof (@len_of_skipn bytes _ (p + 8) Hp8' Hskip3) as Hl.
    rewrite len_app in Hl. lia. }
  rewrite E1, E2, !getUint32_le32 by lia.
  rewrite Hc.
  destruct cs' as [|c' cs''].
  - change (len (encodeChunks [])) with 0 in Hlen.
    replace (p + 8 + len (payload c) =? len bytes) with true
      by (symmetry; apply Z.eqb_eq; lia).
    cbn [snd byteOffset state]. lia.
  - pose proof (len_encodeChunks_nonempty (cs:=c' :: cs'') ltac:(congruence)) as H8.
    replace (p + 8 + len (payload c) =? len bytes) with false
      by (symmetry; apply Z.eqb_neq; lia).
    rewrite bind_run, (loadAsync_state Hserves) by lia. cbv beta iota.
    destruct (p + 8 + len (payload c) + 8 <=? k) eqn:Ek.
    + apply Z.leb_le in Ek.
      apply IH; try assumption; try congruence; try lia.
      simpl in Hfuel |- *. lia.
    + apply Z.leb_gt in Ek.
      apply IH; try assumption; try congruence; try lia.
      simpl in Hfuel |- *. lia.
Qed.

End WalkEnd.

Section ResolvedCursor.

Variable Object : Type.
Variable JSON_parse : string -> option Object.
Variable b : IDataBuffer.
Variable text : list byte.
Variable cs : list chunk.
Variable parsed : Object.
Hypothesis Hserves : serves b (chunked text cs).
Hypothesis Hsize : len (chunked text cs) < 2 ^ 32.
Hypothesis Hparse : JSON_parse (string_of_list_byte text) = Some parsed.
Hypothesis Hfmt : formatsInRange cs.
Hypothesis HnoJSON : noJSON cs = true.

(** Without a second JSON chunk the unpacker ends with the cursor at the
    end of the buffer: every chunk has been consumed. *)
Lemma unpack_chunked_cursor (fuel : nat) :
  (List.length cs <= fuel)%nat ->
  byteOffset (snd (unpack JSON_parse fuel b)) = byteLength b.
Proof.
  intros Hfuel.
  pose proof (len_chunked text cs) as Hl.
  pose proof (len_nonneg text) as Ht.
  assert (Hbl : byteLength b = len (chunked text cs)) by (apply Hserves).
  rewrite Hbl.
  assert (Hcases : cs = [] \/ cs <> [])
    by (clear; destruct cs; [left; reflexivity | right; congruence]).
  destruct Hcases as [Hnil|Hne].
  - rewrite (@unpack_chunked_json_only Object JSON_parse b text cs parsed
               Hserves Hsize Hparse fuel Hnil).
    assert (Hz : len (encodeChunks cs) = 0) by (rewrite Hnil; reflexivity).
    cbn [snd]. destruct (len text =? 0) eqn:E0; cbn [byteOffset state].
    + apply Z.eqb_eq in E0. lia.
    + lia.
  - pose proof (len_encodeChunks_nonempty Hne) as H8.
    rewrite (@unpack_chunked_start Object JSON_parse b text cs Hserves Hsize fuel).
    cbv zeta.
    replace (20 + len text =? len (chunked text cs)) with false
      by (symmetry; apply Z.eqb_neq; lia).
    rewrite bind_run, (loadAsync_state Hserves) by lia. cbv beta iota.
    replace (20 + (len text + 8) <=? 20) with false
      by (symmetry; apply Z.leb_gt; lia).
    run_step readString_state. rewrite chunked_text.
    rewrite bind_run. unfold _parseJson. rewrite Hparse.
    unfold ret. cbv beta iota.
    apply (@readAsync_walk_end Object b (chunked text cs) Hserves Hsize cs);
      try assumption; try lia.
    apply chunked_rest.
Qed.

End ResolvedCursor.

(** C8.  In a chunked container with a JSON chunk followed by chunks none
    of which is a JSON chunk, [unpack] resolves and every chunk is
    consumed (the cursor ends at the end of the buffer); [json] is the
    parsed text and [bin] is a view of the payload of the last BIN chunk,
    or [null] if there is no BIN chunk.  The chunks of unrecognized format
    make no difference: the container without them gives the same [json]
    and a [bin] that is a view of the same payload (or [null] in both). *)
Theorem chunked_unrecognized_skipped (Object : Type)
    (JSON_parse : string -> option Object) (b b' : IDataBuffer)
    (text : list byte) (cs : list chunk) (parsed : Object) (fuel : nat) :
  serves b (chunked text cs) ->
  serves b' (chunked text (filter isBIN cs)) ->
  len (chunked text cs) < 2 ^ 32 ->
  JSON_parse (string_of_list_byte text) = Some parsed ->
  formatsInRange cs ->
  noJSON cs = true ->
  (List.length cs <= fuel)%nat ->
  exists data r data' r',
    unpack JSON_parse fuel b = (Resolved data, r) /\
    unpack JSON_parse fuel b' = (Resolved data', r') /\
    json data = parsed /\ json data' = parsed /\
    viewOf (bin data) (lastBINPayload cs) /\
    viewOf (bin data') (lastBINPayload cs) /\
    byteOffset r = byteLength b /\ byteOffset r' = byteLength b'.
Proof.
  intros Hserves Hserves' Hsize Hparse Hfmt HnoJSON Hfuel.
  assert (Hsize' : len (chunked text (filter isBIN cs)) < 2 ^ 32).
  { rewrite len_chunked in Hsize |- *.
    pose proof (len_encodeChunks_filter isBIN cs). lia. }
  assert (Hfuel' : (List.length (filter isBIN cs) <= fuel)%nat).
  { pose proof (filter_length_le isBIN cs). lia. }
  pose proof (formatsInRange_filter isBIN Hfmt) as Hfmt'.
  pose proof (noJSON_filter isBIN cs HnoJSON) as HnoJSON'.
  destruct (@unpack_chunked_viewOf Object JSON_parse b text cs parsed
              Hserves Hsize Hparse Hfmt HnoJSON fuel Hfuel)
    as (data & Hrun & Hjson & Hview).
  destruct (@unpack_chunked_viewOf Object JSON_parse b' text (filter isBIN cs) parsed
              Hserves' Hsize' Hparse Hfmt' HnoJSON' fuel Hfuel')
    as (data' & Hrun' & Hjson' & Hview').
  pose proof (@unpack_chunked_cursor Object JSON_parse b text cs parsed
                Hserves Hsize Hparse Hfmt HnoJSON fuel Hfuel) as Hend.
  pose proof (@unpack_chunked_cursor Object JSON_parse b' text (filter isBIN cs) parsed
                Hserves' Hsize' Hparse Hfmt' HnoJSON' fuel Hfuel') as Hend'.
  rewrite <- (lastBIN_filter cs (20 + len text) (20 + len text)) in Hview'.
  rewrite lastBIN_payload in Hview, Hview'.
  destruct (unpack JSON_parse fuel b) as [o r].
  destruct (unpack JSON_parse fuel b') as [o' r'].
  cbn [fst snd] in *. subst o o'.
  exists data, r, data', r'. repeat split; assumption.
Qed.

Lemma chunked_unrecognized_skipped_witness :
  exists data r data' r',
    unpack parseAny 3
      (arrayBufferSource
         (chunked exampleText [exampleOther; exampleBIN; exampleOther]))
    = (Resolved data, r) /\
    unpack parseAny 3 (arrayBufferSource (chunked exampleText [exampleBIN]))
    = (Resolved data', r') /\
    json data = "{}"%string /\ json data' = "{}"%string /\
    viewOf (bin data) (Some [x01; x02; x03]) /\
    viewOf (bin data') (Some [x01; x02; x03]) /\
    byteOffset r = 51 /\ byteOffset r' = 33.
Proof.
  apply (@chunked_unrecognized_skipped string parseAny
           (arrayBufferSource
              (chunked exampleText [exampleOther; exampleBIN; exampleOther]))
           (arrayBufferSource (chunked exampleText [exampleBIN]))
           exampleText [exampleOther; exampleBIN; exampleOther] "{}"%string 3%nat).
  - apply arrayBufferSource_serves.
  - apply arrayBufferSource_serves.
  - vm_compute. reflexivity.
  - reflexivity.
  - repeat constructor; vm_compute; congruence.
  - reflexivity.
  - simpl. lia.
Defined.

(** X9.  A container of version 2 whose first chunk is not a JSON chunk
    is rejected with "First chunk format is not JSON" as soon as the
    first 20 bytes are read: nothing else has been requested and no text
    has been parsed. *)
Theorem first_chunk_not_json (Object : Type) (JSON_parse : string -> option Object)
    (b : IDataBuffer) (bytes : list byte) (fuel : nat) :
  serves b bytes -> 20 <= len bytes ->
  getUint32 (slice bytes 0 4) = Binary.Magic ->
  getUint32 (slice bytes 4 4) = 2 ->
  getUint32 (slice bytes 8 4) = len bytes ->
  getUint32 (slice bytes 16 4) <> ChunkFormat.JSON ->
  unpack JSON_parse fuel b =
  (Rejected FirstChunkNotJSON, state b bytes 20 20 [(0, 20)]).
Proof.
  intros Hserves Hlen Hmagic Hver Htotal Hfmt.
  rewrite (unpack_served JSON_parse fuel Hserves Hlen Hmagic). cbv zeta.
  rewrite Hver, Htotal, Z.eqb_refl. cbn [negb Z.eqb]. cbv iota.
  rewrite (@unpackBinaryV2_start Object JSON_parse b bytes Hserves fuel _ Hlen).
  cbv zeta. apply Z.eqb_neq in Hfmt. rewrite Hfmt. reflexivity.
Qed.

Lemma first_chunk_not_json_witness :
  unpack parseAny 1
    (arrayBufferSource (header 2 32 ++ encodeChunk exampleBIN ++ encodeChunk exampleOther))
  = (Rejected FirstChunkNotJSON,
     state (arrayBufferSource
              (header 2 32 ++ encodeChunk exampleBIN ++ encodeChunk exampleOther))
           (header 2 32 ++ encodeChunk exampleBIN ++ encodeChunk exampleOther)
           20 20 [(0, 20)]).
Proof.
  apply (@first_chunk_not_json string parseAny
           (arrayBufferSource
              (header 2 32 ++ encodeChunk exampleBIN ++ encodeChunk exampleOther))
           (header 2 32 ++ encodeChunk exampleBIN ++ encodeChunk exampleOther)
           1%nat).
  - apply arrayBufferSource_serves.
  - vm_compute. congruence.
  - reflexivity.
  - reflexivity.
  - reflexivity.
  - vm_compute. congruence.
Defined.

(** X10.  A container of version 1 whose content format is not 0 (JSON)
    is rejected with "Unexpected content format" as soon as the first 20
    bytes are read: nothing else has been requested and no text has been
    parsed. *)
Theorem unexpected_content_format (Object : Type)
    (JSON_parse : string -> option Object)
    (b : IDataBuffer) (bytes : list byte) (fuel : nat) :
  serves b bytes -> 20 <= len bytes ->
  getUint32 (slice bytes 0 4) = Binary.Magic ->
  getUint32 (slice bytes 4 4) = 1 ->
  getUint32 (slice bytes 8 4) = len bytes ->
  getUint32 (slice bytes 16 4) <> ContentFormat.JSON ->
  unpack JSON_parse fuel b =
  (Rejected (UnexpectedContentFormat (getUint32 (slice bytes 16 4))),
   state b bytes 20 20 [(0, 20)]).
Proof.
  intros Hserves Hlen Hmagic Hver Htotal Hfmt.
  rewrite (unpack_served JSON_parse fuel Hserves Hlen Hmagic). cbv zeta.
  rewrite Hver, Htotal, Z.eqb_refl. cbn [negb Z.eqb]. cbv iota.
  rewrite (@unpackBinaryV1_start Object JSON_parse b bytes Hserves _ Hlen).
  cbv zeta. apply Z.eqb_neq in Hfmt. rewrite Hfmt. reflexivity.
Qed.

Lemma unexpected_content_format_witness :
  unpack parseAny 0
    (arrayBufferSource (header 1 22 ++ le32 2 ++ le32 1 ++ exampleText))
  = (Rejected (UnexpectedContentFormat 1),
     state (arrayBufferSource (header 1 22 ++ le32 2 ++ le32 1 ++ exampleText))
           (header 1 22 ++ le32 2 ++ le32 1 ++ exampleText)
           20 20 [(0, 20)]).
Proof.
  apply (@unexpected_content_format string parseAny
           (arrayBufferSource (header 1 22 ++ le32 2 ++ le32 1 ++ exampleText))
           (header 1 22 ++ le32 2 ++ le32 1 ++ exampleText) 0%nat).
  - apply arrayBufferSource_serves.
  - vm_compute. congruence.
  - reflexivity.
  - reflexivity.
  - reflexivity.
  - vm_compute. congruence.
Defined.

(** X11.  In a chunked container whose JSON text does not parse, the
    syntax error is the outcome, whatever chunks follow: the text is
    parsed before the chunks after it are looked at. *)
Theorem chunked_json_syntax_error (Object : Type)
    (JSON_parse : string -> option Object)
    (b : IDataBuffer) (text : list byte) (cs : list chunk) (fuel : nat) :
  serves b (chunked text cs) ->
  len (chunked text cs) < 2 ^ 32 ->
  JSON_parse (string_of_list_byte text) = None ->
  fst (unpack JSON_parse fuel b) = Rejected JSONSyntaxError.
Proof.
  intros Hserves Hsize Hparse.
  pose proof (len_chunked text cs) as Hl.
  pose proof (len_nonneg text) as Ht.
  pose proof (len_nonneg (encodeChunks cs)) as Hc.
  rewrite (@unpack_chunked_start Object JSON_parse b text cs Hserves Hsize fuel).
  cbv zeta.
  destruct (20 + len text =? len (chunked text cs)) eqn:E.
  - apply Z.eqb_eq in E.
    rewrite bind_run, (loadAsync_state Hserves) by lia. cbv beta iota.
    assert (Hread : forall k q, 20 + len text <= k <= len (chunked text cs) ->
      fst ((text0 <- readString (len text) ;;
            parsed <- _parseJson JSON_parse text0 ;;
            ret {| json := parsed; bin := None |})
             (state b (chunked text cs) 20 k q)) = Rejected JSONSyntaxError).
    { intros k q Hk. run_step readString_state. rewrite chunked_text.
      rewrite bind_run. unfold _parseJson. rewrite Hparse. reflexivity. }
    destruct (20 + len text <=? 20) eqn:E2.
    + apply Z.leb_le in E2. apply Hread. lia.
    + apply Hread. lia.
  - apply Z.eqb_neq in E.
    assert (Hne : cs <> []).
    { intros Hnil. rewrite Hnil in Hl, E.
      change (len (encodeChunks [])) with 0 in Hl. lia. }
    pose proof (len_encodeChunks_nonempty Hne) as H8.
    rewrite bind_run, (loadAsync_state Hserves) by lia. cbv beta iota.
    replace (20 + (len text + 8) <=? 20) with false
      by (symmetry; apply Z.leb_gt; lia).
    run_step readString_state. rewrite chunked_text.
    rewrite bind_run. unfold _parseJson. rewrite Hparse. reflexivity.
Qed.

Lemma chunked_json_syntax_error_witness :
  fst (unpack parseNone 3
         (arrayBufferSource (chunked exampleText [exampleBIN; exampleJSON])))
  = Rejected JSONSyntaxError.
Proof.
  apply (@chunked_json_syntax_error string parseNone
           (arrayBufferSource (chunked exampleText [exampleBIN; exampleJSON]))
           exampleText [exampleBIN; exampleJSON] 3%nat).
  - apply arrayBufferSource_serves.
  - vm_compute. reflexivity.
  - reflexivity.
Defined.

(** ** The unpacker over an array buffer *)

Lemma unpackBinaryV1_settles (Object : Type) (JSON_parse : string -> option Object)
      (r : DataReader.t) :
  fst (_unpackBinaryV1Async JSON_parse r) <> Unsettled.
Proof.
  unfold _unpackBinaryV1Async, _parseJson, bind, readUint32, readString,
    getBuffer, getByteOffset, ret, throw.
  repeat match goal with
         | |- context [if ?c then _ else _] => destruct c
         | |- context [match JSON_parse ?x with _ => _ end] =>
             destruct (JSON_parse x)
         end; cbn; discriminate.
Qed.

Section ArrayBuffer.

Variable Object : Type.
Variable JSON_parse : string -> option Object.
Variable bytes : list byte.

(** A load that reaches beyond the array buffer is rejected. *)
Lemma loadAsync_beyond (n p k : Z) q :
  0 <= k <= len bytes -> len bytes < p + n ->
  loadAsync n (state (arrayBufferSource bytes) bytes p k q) =
  (Rejected SourceReadError, state (arrayBufferSource bytes) bytes p k (q ++ [(k, p + n - k)])).
Proof.
  intros Hk Hn. unfold loadAsync.
  rewrite loaded_state by assumption.
  cbv zeta. change (byteOffset (state (arrayBufferSource bytes) bytes p k q)) with p.
  replace (p + n <=? k) with false by (symmetry; apply Z.leb_gt; lia).
  cbn [fst snd buffer state readAsync arrayBufferSource].
  replace (k + (p + n - k) <=? len bytes) with false
    by (symmetry; apply Z.leb_gt; lia).
  rewrite andb_false_r. reflexivity.
Qed.

(** A load that stays inside leaves a window that covers it. *)
Lemma loadAsync_inside (n p k : Z) q :
  0 <= k <= len bytes -> p + n <= len bytes ->
  exists k' q',
    loadAsync n (state (arrayBufferSource bytes) bytes p k q) = (Resolved tt, state (arrayBufferSource bytes) bytes p k' q') /\
    k <= k' <= len bytes /\ p + n <= k'.
Proof.
  intros Hk Hn.
  rewrite (loadAsync_state (arrayBufferSource_serves bytes)) by assumption.
  destruct (p + n <=? k) eqn:E.
  - apply Z.leb_le in E. exists k, q. repeat split; lia.
  - apply Z.leb_gt in E. eexists _, _. split; [reflexivity|]. lia.
Qed.

Lemma unpack_short (fuel : nat) :
  len bytes < 20 ->
  unpack JSON_parse fuel (arrayBufferSource bytes) =
  (Rejected SourceReadError, state (arrayBufferSource bytes) bytes 0 0 [(0, 20)]).
Proof.
  intros Hlen. unfold unpack, _unpackBinaryAsync.
  rewrite bind_run, (make_state (arrayBufferSource bytes) bytes).
  rewrite loadAsync_beyond by (pose proof (len_nonneg bytes); lia).
  reflexivity.
Qed.

(** Reading and parsing a text that is in the window. *)
Lemma read_and_parse (A : Type) (K : Object -> M A) (n p k : Z) q :
  0 <= p -> 0 <= n -> p + n <= k -> k <= len bytes ->
  (text <- readString n ;; parsed <- _parseJson JSON_parse text ;; K parsed)
    (state (arrayBufferSource bytes) bytes p k q) =
  match JSON_parse (string_of_list_byte (slice bytes p n)) with
  | Some parsed => K parsed (state (arrayBufferSource bytes) bytes (p + n) k q)
  | None => (Rejected JSONSyntaxError, state (arrayBufferSource bytes) bytes (p + n) k q)
  end.
Proof.
  intros Hp Hn Hk Hl.
  run_step readString_state. rewrite bind_run. unfold _parseJson.
  destruct (JSON_parse (string_of_list_byte (slice bytes p n))); reflexivity.
Qed.

(** The chunk loop over any bytes: it settles when the fuel covers the
    bytes left, and when it resolves the cursor is at the end and [bin],
    if the loop has set it, is a view of bytes inside the buffer. *)
Lemma readAsync_any (fuel : nat) :
  forall (data : IGLTFLoaderData Object) (p k : Z) q,
    0 <= p -> p + 8 <= k <= len bytes ->
    (len bytes - p <= 8 * Z.of_nat fuel + 7 -> (1 <= fuel)%nat ->
     fst (_unpackBinaryV2Async_readAsync fuel data (state (arrayBufferSource bytes) bytes p k q))
     <> Unsettled) /\
    (forall d r,
       _unpackBinaryV2Async_readAsync fuel data (state (arrayBufferSource bytes) bytes p k q)
       = (Resolved d, r) ->
       byteOffset r = len bytes /\ json d = json data /\
       (bin d = bin data \/
        exists start length,
          bin d = Some (binView (arrayBufferSource bytes) start length) /\
          p + 8 <= start /\ 0 <= length /\ start + length <= len bytes)).
Proof.
  induction fuel as [|fuel IH]; intros data p k q Hp Hk.
  - split; [lia|]. intros d r H. discriminate.
  - rewrite (readAsync_turn (arrayBufferSource_serves bytes)) by assumption.
    cbv zeta.
    pose proof (getUint32_nonneg (slice bytes p 4)) as HL.
    set (L := getUint32 (slice bytes p 4)) in *.
    set (F := getUint32 (slice bytes (p + 4) 4)).
    destruct (F =? ChunkFormat.JSON);
      [split; [intros; discriminate | intros d r H; discriminate]|].
    set (data' := if F =? ChunkFormat.BIN
                  then {| json := json data; bin := Some (binView (arrayBufferSource bytes) (p + 8) L) |}
                  else data).
    assert (Hjson : json data' = json data)
      by (subst data'; destruct (F =? ChunkFormat.BIN); reflexivity).
    assert (Hbin : p + 8 + L <= len bytes ->
              bin data' = bin data \/
              exists start length,
                bin data' = Some (binView (arrayBufferSource bytes) start length) /\
                p + 8 <= start /\ 0 <= length /\ start + length <= len bytes).
    { intros Hin. subst data'. destruct (F =? ChunkFormat.BIN); [|left; reflexivity].
      right. exists (p + 8), L. repeat split; lia. }
    destruct (p + 8 + L =? len bytes) eqn:Eend.
    + apply Z.eqb_eq in Eend. split; [intros; discriminate|].
      intros d r H. inversion H; subst d r. cbn [byteOffset state].
      split; [exact Eend|]. split; [exact Hjson|]. apply Hbin. lia.
    + apply Z.eqb_neq in Eend. rewrite bind_run.
      destruct (Z_le_gt_dec (p + 8 + L + 8) (len bytes)) as [Hin|Hout].
      * destruct (@loadAsync_inside 8 (p + 8 + L) k q ltac:(lia) Hin)
          as (k' & q' & Hload & Hk1 & Hk2).
        rewrite Hload. cbv beta iota.
        destruct (IH data' (p + 8 + L) k' q' ltac:(lia) ltac:(lia)) as [IH1 IH2].
        split.
        { intros Hfuel _. apply IH1; lia. }
        intros d r H. destruct (IH2 d r H) as (Hr & Hj & Hb).
        split; [exact Hr|]. split; [congruence|].
        destruct Hb as [Hb|(start & length & Hb & Hs1 & Hs2 & Hs3)].
        { rewrite Hb. apply Hbin. lia. }
        right. exists start, length. repeat split; try assumption. lia.
      * rewrite loadAsync_beyond by lia.
        split; [intros; discriminate | intros d r H; discriminate].
Qed.

End ArrayBuffer.

Section ArrayBufferUnpack.

Variable Object : Type.
Variable JSON_parse : string -> option Object.
Variable bytes : list byte.

(** The chunked strategy over any bytes. *)
Lemma unpackBinaryV2_any (fuel : nat) q :
  20 <= len bytes ->
  (len bytes <= 8 * Z.of_nat fuel ->
   fst (_unpackBinaryV2Async JSON_parse fuel
          (state (arrayBufferSource bytes) bytes 12 20 q)) <> Unsettled) /\
  (forall d r,
     _unpackBinaryV2Async JSON_parse fuel
       (state (arrayBufferSource bytes) bytes 12 20 q) = (Resolved d, r) ->
     getUint32 (slice bytes 16 4) = ChunkFormat.JSON /\
     JSON_parse (string_of_list_byte
                   (slice bytes 20 (getUint32 (slice bytes 12 4))))
     = Some (json d) /\
     byteOffset r = len bytes /\
     (bin d = None \/
      exists start length,
        bin d = Some (binView (arrayBufferSource bytes) start length) /\
        20 + getUint32 (slice bytes 12 4) + 8 <= start /\
        0 <= length /\ start + length <= len bytes)).
Proof.
  intros Hlen.
  rewrite (unpackBinaryV2_start JSON_parse (arrayBufferSource_serves bytes))
    by assumption.
  cbv zeta.
  pose proof (getUint32_nonneg (slice bytes 12 4)) as HL.
  set (L := getUint32 (slice bytes 12 4)) in *.
  destruct (Z.eqb_spec (getUint32 (slice bytes 16 4)) ChunkFormat.JSON)
    as [Hfmt|Hfmt]; cbn [negb];
    [|split; [intros; discriminate | intros d r H; discriminate]].
  destruct (20 + L =? len bytes) eqn:Eend.
  - apply Z.eqb_eq in Eend. rewrite bind_run.
    destruct (@loadAsync_inside bytes L 20 20 q ltac:(lia) ltac:(lia))
      as (k' & q' & Hload & Hk1 & Hk2).
    rewrite Hload. cbv beta iota.
    rewrite read_and_parse by lia.
    destruct (JSON_parse (string_of_list_byte (slice bytes 20 L))) as [parsed|];
      [|split; [intros; discriminate | intros d r H; discriminate]].
    split; [intros; discriminate|].
    intros d r H. inversion H; subst d r. cbn [json bin byteOffset state].
    repeat split; try assumption. left. reflexivity.
  - apply Z.eqb_neq in Eend. rewrite bind_run.
    destruct (Z_le_gt_dec (20 + (L + 8)) (len bytes)) as [Hin|Hout].
    + destruct (@loadAsync_inside bytes (L + 8) 20 20 q ltac:(lia) Hin)
        as (k' & q' & Hload & Hk1 & Hk2).
      rewrite Hload. cbv beta iota.
      rewrite read_and_parse by lia.
      destruct (JSON_parse (string_of_list_byte (slice bytes 20 L))) as [parsed|];
        [|split; [intros; discriminate | intros d r H; discriminate]].
      destruct (@readAsync_any Object bytes fuel {| json := parsed; bin := None |}
                  (20 + L) k' q' ltac:(lia) ltac:(lia)) as [H1 H2].
      split.
      * intros Hfuel. apply H1; lia.
      * intros d r H. destruct (H2 d r H) as (Hr & Hj & Hb).
        cbn [json bin] in Hj, Hb.
        split; [exact Hfmt|]. split; [congruence|]. split; [exact Hr|].
        destruct Hb as [Hb|(start & length & Hb & Hs1 & Hs2 & Hs3)];
          [left; exact Hb|].
        right. exists start, length. repeat split; assumption.
    + rewrite loadAsync_beyond by lia.
      split; [intros; discriminate | intros d r H; discriminate].
Qed.

(** What [unpack] does with an array buffer, by the header. *)
Lemma unpack_array_buffer (fuel : nat) :
  unpack JSON_parse fuel (arrayBufferSource bytes) =
  if len bytes <? 20
  then (Rejected SourceReadError,
        state (arrayBufferSource bytes) bytes 0 0 [(0, 20)])
  else if negb (getUint32 (slice bytes 0 4) =? Binary.Magic)
  then (Rejected (UnexpectedMagic (getUint32 (slice bytes 0 4))),
        {| buffer := arrayBufferSource bytes; byteOffset := 4;
           window := slice bytes 0 20; requests := [(0, 20)] |})
  else
    let r := state (arrayBufferSource bytes) bytes 12 20 [(0, 20)] in
    let version := getUint32 (slice bytes 4 4) in
    let length := getUint32 (slice bytes 8 4) in
    if negb (length =? len bytes)
    then (Rejected (LengthMismatch length (len bytes)), r)
    else if version =? 1 then _unpackBinaryV1Async JSON_parse r
    else if version =? 2 then _unpackBinaryV2Async JSON_parse fuel r
    else (Rejected (UnsupportedVersion version), r).
Proof.
  destruct (Z.ltb_spec (len bytes) 20) as [Hshort|Hlen].
  - apply unpack_short, Hshort.
  - pose proof (arrayBufferSource_serves bytes) as Hserves.
    destruct (Z.eqb_spec (getUint32 (slice bytes 0 4)) Binary.Magic)
      as [Hmagic|Hmagic]; cbn [negb].
    + apply unpack_served; assumption.
    + assert (Hload : readAsync (arrayBufferSource bytes) 0 20
                      = Some (slice bytes 0 20))
        by (apply Hserves; lia).
      assert (Hh : len (slice bytes 0 20) = 20) by (apply len_slice; lia).
      pose proof (@unpack_bad_magic Object JSON_parse (arrayBufferSource bytes)
                    (slice bytes 0 20) Hload fuel) as H.
      rewrite slice_slice in H by lia. apply H; [lia | exact Hmagic].
Qed.

End ArrayBufferUnpack.

(** X12.  Over an array buffer, [unpack] always settles: with fuel for
    one turn of the chunk loop for every 8 bytes of the buffer, the
    promise is resolved or rejected, whatever the bytes are. *)
Theorem unpack_settles (Object : Type) (JSON_parse : string -> option Object)
    (bytes : list byte) (fuel : nat) :
  len bytes <= 8 * Z.of_nat fuel ->
  fst (unpack JSON_parse fuel (arrayBufferSource bytes)) <> Unsettled.
Proof.
  intros Hfuel. rewrite unpack_array_buffer.
  destruct (Z.ltb_spec (len bytes) 20) as [Hshort|Hlen]; [discriminate|].
  destruct (negb (getUint32 (slice bytes 0 4) =? Binary.Magic)); [discriminate|].
  cbv zeta.
  destruct (negb (getUint32 (slice bytes 8 4) =? len bytes)); [discriminate|].
  destruct (getUint32 (slice bytes 4 4) =? 1); [apply unpackBinaryV1_settles|].
  destruct (getUint32 (slice bytes 4 4) =? 2); [|discriminate].
  apply (@unpackBinaryV2_any Object JSON_parse bytes fuel [(0, 20)] Hlen), Hfuel.
Qed.

Lemma unpack_settles_witness :
  fst (unpack parseAny 6
         (arrayBufferSource (chunked exampleText [exampleOther; exampleBIN])))
  <> Unsettled.
Proof.
  apply (@unpack_settles string parseAny
           (chunked exampleText [exampleOther; exampleBIN]) 6%nat).
  vm_compute. congruence.
Defined.

(** X13.  Over an array buffer, [unpack] resolves only for at least 20
    bytes that start with the magic number, declare the length of the
    buffer and carry version 1 or 2. *)
Theorem unpack_resolves_only_valid_header (Object : Type)
    (JSON_parse : string -> option Object) (bytes : list byte) (fuel : nat)
    (data : IGLTFLoaderData Object) (r : DataReader.t) :
  unpack JSON_parse fuel (arrayBufferSource bytes) = (Resolved data, r) ->
  20 <= len bytes /\
  getUint32 (slice bytes 0 4) = Binary.Magic /\
  getUint32 (slice bytes 8 4) = len bytes /\
  (getUint32 (slice bytes 4 4) = 1 \/ getUint32 (slice bytes 4 4) = 2).
Proof.
  rewrite unpack_array_buffer.
  destruct (Z.ltb_spec (len bytes) 20) as [Hshort|Hlen]; [discriminate|].
  destruct (Z.eqb_spec (getUint32 (slice bytes 0 4)) Binary.Magic)
    as [Hmagic|Hmagic]; cbn [negb]; [|discriminate].
  cbv zeta.
  destruct (Z.eqb_spec (getUint32 (slice bytes 8 4)) (len bytes))
    as [Htotal|Htotal]; cbn [negb]; [|discriminate].
  destruct (Z.eqb_spec (getUint32 (slice bytes 4 4)) 1) as [H1|H1];
    [intros _; auto|].
  destruct (Z.eqb_spec (getUint32 (slice bytes 4 4)) 2) as [H2|H2];
    [intros _; auto | discriminate].
Qed.

Lemma unpack_resolves_only_valid_header_witness :
  20 <= len (chunked exampleText [exampleBIN]) /\
  getUint32 (slice (chunked exampleText [exampleBIN]) 0 4) = Binary.Magic /\
  getUint32 (slice (chunked exampleText [exampleBIN]) 8 4)
  = len (chunked exampleText [exampleBIN]) /\
  (getUint32 (slice (chunked exampleText [exampleBIN]) 4 4) = 1 \/
   getUint32 (slice (chunked exampleText [exampleBIN]) 4 4) = 2).
Proof.
  eapply (@unpack_resolves_only_valid_header string parseAny
            (chunked exampleText [exampleBIN]) 1%nat).
  reflexivity.
Defined.

(** X14.  Over an array buffer, when [unpack] resolves for a container
    of version 2, the first chunk is a JSON chunk and [json] is the parse
    of its text, the cursor is at the end of the buffer, and [bin] is
    [null] or a view of bytes that lie after the JSON chunk and the next
    chunk header and inside the buffer. *)
Theorem chunked_resolved_bin_inside (Object : Type)
    (JSON_parse : string -> option Object) (bytes : list byte) (fuel : nat)
    (data : IGLTFLoaderData Object) (r : DataReader.t) :
  unpack JSON_parse fuel (arrayBufferSource bytes) = (Resolved data, r) ->
  getUint32 (slice bytes 4 4) = 2 ->
  getUint32 (slice bytes 16 4) = ChunkFormat.JSON /\
  JSON_parse (string_of_list_byte
                (slice bytes 20 (getUint32 (slice bytes 12 4))))
  = Some (json data) /\
  byteOffset r = len bytes /\
  (bin data = None \/
   exists start length,
     bin data = Some (binView (arrayBufferSource bytes) start length) /\
     20 + getUint32 (slice bytes 12 4) + 8 <= start /\
     0 <= length /\ start + length <= len bytes).
Proof.
  rewrite unpack_array_buffer.
  destruct (Z.ltb_spec (len bytes) 20) as [Hshort|Hlen]; [discriminate|].
  destruct (negb (getUint32 (slice bytes 0 4) =? Binary.Magic)); [discriminate|].
  cbv zeta.
  destruct (negb (getUint32 (slice bytes 8 4) =? len bytes)); [discriminate|].
  intros H Hver. rewrite Hver in H. cbn [Z.eqb] in H. cbv iota in H.
  exact (proj2 (@unpackBinaryV2_any Object JSON_parse bytes fuel [(0, 20)] Hlen) data r H).
Qed.

Lemma chunked_resolved_bin_inside_witness :
  getUint32 (slice exampleChunked 16 4) = ChunkFormat.JSON /\
  parseAny (string_of_list_byte
              (slice exampleChunked 20 (getUint32 (slice exampleChunked 12 4))))
  = Some "{}"%string /\
  byteOffset (state (arrayBufferSource exampleChunked) exampleChunked 33 30
                    [(0, 20); (20, 10)])
  = len exampleChunked /\
  (Some (binView (arrayBufferSource exampleChunked) 30 3) = None \/
   exists start length,
     Some (binView (arrayBufferSource exampleChunked) 30 3)
     = Some (binView (arrayBufferSource exampleChunked) start length) /\
     20 + getUint32 (slice exampleChunked 12 4) + 8 <= start /\
     0 <= length /\ start + length <= len exampleChunked).
Proof.
  apply (@chunked_resolved_bin_inside string parseAny exampleChunked 1%nat
           {| json := "{}"%string;
              bin := Some (binView (arrayBufferSource exampleChunked) 30 3) |}
           (state (arrayBufferSource exampleChunked) exampleChunked 33 30
                  [(0, 20); (20, 10)])).
  - reflexivity.
  - reflexivity.
Defined.

(** ** Containers that end in an incomplete chunk *)

Lemma len_chunkedThen (text : list byte) (cs : list chunk) (tail : list byte) :
  len (chunkedThen text cs tail)
  = 20 + len text + len (encodeChunks cs) + len tail.
Proof.
  unfold chunkedThen. cbv zeta.
  rewrite !len_app, len_header, len_encodeChunk. cbn [payload]. lia.
Qed.

Lemma chunkedThen_fields (text : list byte) (cs : list chunk) (tail : list byte) :
  let bytes := chunkedThen text cs tail in
  slice bytes 0 4 = le32 Binary.Magic /\
  slice bytes 4 4 = le32 2 /\
  slice bytes 8 4 = le32 (len bytes) /\
  slice bytes 12 4 = le32 (len text) /\
  slice bytes 16 4 = le32 ChunkFormat.JSON /\
  skipn (Z.to_nat 20) bytes = text ++ encodeChunks cs ++ tail.
Proof.
  cbv zeta. rewrite len_chunkedThen.
  replace (20 + len text + len (encodeChunks cs) + len tail)
    with (12 + len (encodeChunk {| format := ChunkFormat.JSON; payload := text |}
                    ++ encodeChunks cs ++ tail))
    by (rewrite !len_app, len_encodeChunk; cbn [payload]; lia).
  repeat split; reflexivity.
Qed.

Section Incomplete.

Variable Object : Type.
Variable bytes : list byte.
Variable tail : list byte.
Hypothesis Hsize : len bytes < 2 ^ 32.
Hypothesis Htail : incompleteChunk tail.

(** The chunk loop over chunks followed by an incomplete chunk ends in a
    rejected load. *)
Lemma readAsync_incomplete (cs : list chunk) :
  forall (fuel : nat) (data : IGLTFLoaderData Object) (p k : Z) q,
    noJSON cs = true -> formatsInRange cs ->
    skipn (Z.to_nat p) bytes = encodeChunks cs ++ tail ->
    cs <> [] \/ 8 <= len tail ->
    0 <= p -> p + 8 <= k <= len bytes ->
    (List.length cs + 1 <= fuel)%nat ->
    fst (_unpackBinaryV2Async_readAsync fuel data
           (state (arrayBufferSource bytes) bytes p k q))
    = Rejected SourceReadError.
Proof.
  pose proof (arrayBufferSource_serves bytes) as Hserves.
  destruct Htail as [Htail0 Htail1].
  induction cs as [|c cs' IH];
    intros fuel data p k q HnoJSON Hfmt Hskip Hhead Hp Hk Hfuel;
    (destruct fuel as [|fuel]; [simpl in Hfuel; lia|]);
    rewrite (readAsync_turn Hserves) by assumption; cbv zeta.
  - change (encodeChunks [] ++ tail) with tail in Hskip.
    destruct Hhead as [Hne|H8]; [congruence|].
    destruct Htail1 as [Hlt|[Hfmt1 Hlt]]; [lia|].
    assert (Hlen : len bytes = p + len tail)
      by (apply len_of_skipn; [lia | exact Hskip]).
    assert (E1 : slice bytes p 4 = slice tail 0 4)
      by (unfold slice; rewrite Hskip; reflexivity).
    assert (E2 : slice bytes (p + 4) 4 = slice tail 4 4).
    { unfold slice. rewrite Z2Nat.inj_add by lia.
      rewrite Nat.add_comm, <- skipn_skipn, Hskip. reflexivity. }
    rewrite E1, E2.
    replace (getUint32 (slice tail 4 4) =? ChunkFormat.JSON) with false
      by (symmetry; apply Z.eqb_neq; exact Hfmt1).
    replace (p + 8 + getUint32 (slice tail 0 4) =? len bytes) with false
      by (symmetry; apply Z.eqb_neq; lia).
    rewrite bind_run, loadAsync_beyond by lia. reflexivity.
  - unfold noJSON in HnoJSON. cbn [forallb] in HnoJSON.
    apply andb_true_iff in HnoJSON as [Hc HnoJSON'].
    apply negb_true_iff in Hc. unfold isJSON in Hc.
    inversion Hfmt as [|? ? Hcr Hfmt']; subst.
    change (encodeChunks (c :: cs')) with (encodeChunk c ++ encodeChunks cs') in Hskip.
    unfold encodeChunk in Hskip. rewrite <- !app_assoc in Hskip.
    pose proof (len_nonneg (payload c)) as HL.
    pose proof (len_nonneg (encodeChunks cs')) as HR.
    pose proof (slice_of_skipn _ _ _ _ Hskip) as E1. rewrite len_le32 in E1.
    pose proof (@skipn_skipn_Z _ _ _ p Hp Hskip) as Hskip2.
    rewrite len_le32 in Hskip2.
    pose proof (slice_of_skipn _ _ _ _ Hskip2) as E2. rewrite len_le32 in E2.
    assert (Hp4 : 0 <= p + 4) by lia.
    pose proof (@skipn_skipn_Z _ _ _ (p + 4) Hp4 Hskip2) as Hskip3.
    rewrite len_le32 in Hskip3. replace (p + 4 + 4) with (p + 8) in Hskip3 by lia.
    assert (Hp8 : 0 <= p + 8) by lia.
    pose proof (@skipn_skipn_Z _ _ _ (p + 8) Hp8 Hskip3) as Hskip4.
    assert (Hlen : len bytes
                   = p + 8 + len (payload c) + len (encodeChunks cs') + len tail).
    { assert (Hp8' : 0 <= p + 8 <= len bytes) by lia.
      pose proof (@len_of_skipn bytes _ (p + 8) Hp8' Hskip3) as Hl.
      rewrite !len_app in Hl. lia. }
    rewrite E1, E2, !getUint32_le32 by lia.
    rewrite Hc.
    replace (p + 8 + len (payload c) =? len bytes) with false
      by (symmetry; apply Z.eqb_neq; lia).
    rewrite bind_run.
    assert (Hcases : (cs' = [] /\ len tail < 8) \/ (cs' <> [] \/ 8 <= len tail)).
    { destruct cs' as [|c' cs'']; [|right; left; congruence].
      destruct (Z_lt_ge_dec (len tail) 8); [left; auto | right; right; lia]. }
    destruct Hcases as [[Hnil Hlt]|Hhead'].
    + subst cs'. change (len (encodeChunks [])) with 0 in Hlen.
      rewrite loadAsync_beyond by lia. reflexivity.
    + assert (Hin : p + 8 + len (payload c) + 8 <= len bytes).
      { destruct Hhead' as [Hne|H8]; [|lia].
        pose proof (len_encodeChunks_nonempty Hne). lia. }
      destruct (@loadAsync_inside bytes 8 (p + 8 + len (payload c)) k q
                  ltac:(lia) Hin) as (k' & q' & Hload & Hk1 & Hk2).
      rewrite Hload. cbv beta iota.
      apply IH; try assumption; try lia.
      simpl in Hfuel. lia.
Qed.

End Incomplete.

(** X15.  A chunked container, given as an array buffer, whose chunks are
    followed by an incomplete chunk (cut inside its header, or with fewer
    payload bytes than its header declares) is rejected: the load that
    would reach beyond the buffer fails, and no view that overruns the
    buffer is returned. *)
Theorem incomplete_chunk_rejected (Object : Type)
    (JSON_parse : string -> option Object)
    (text : list byte) (cs : list chunk) (tail : list byte)
    (parsed : Object) (fuel : nat) :
  len (chunkedThen text cs tail) < 2 ^ 32 ->
  JSON_parse (string_of_list_byte text) = Some parsed ->
  formatsInRange cs -> noJSON cs = true ->
  incompleteChunk tail ->
  (List.length cs + 1 <= fuel)%nat ->
  fst (unpack JSON_parse fuel (arrayBufferSource (chunkedThen text cs tail)))
  = Rejected SourceReadError.
Proof.
  intros Hsize Hparse Hfmt HnoJSON Htail Hfuel.
  set (bytes := chunkedThen text cs tail) in *.
  destruct (chunkedThen_fields text cs tail)
    as (Hmagic & Hver & Htotal & Hlen & Hfmt0 & Hskip).
  fold bytes in Hmagic, Hver, Htotal, Hlen, Hfmt0, Hskip.
  pose proof (len_chunkedThen text cs tail) as Hl. fold bytes in Hl.
  pose proof (len_nonneg text) as Ht.
  pose proof (len_nonneg (encodeChunks cs)) as Hc.
  pose proof Htail as [Htail0 _].
  pose proof (arrayBufferSource_serves bytes) as Hserves.
  rewrite (unpack_served JSON_parse fuel Hserves)
    by (lia || (rewrite Hmagic; reflexivity)).
  cbv zeta. rewrite Hver, Htotal, getUint32_le32 by lia.
  rewrite Z.eqb_refl. cbn [negb].
  change (getUint32 (le32 2) =? 1) with false.
  change (getUint32 (le32 2) =? 2) with true. cbv iota.
  rewrite (unpackBinaryV2_start JSON_parse Hserves) by lia. cbv zeta.
  rewrite Hlen, Hfmt0, (@getUint32_le32 (len text)) by lia.
  change (negb (getUint32 (le32 ChunkFormat.JSON) =? ChunkFormat.JSON)) with false.
  cbv iota.
  replace (20 + len text =? len bytes) with false
    by (symmetry; apply Z.eqb_neq; lia).
  rewrite bind_run.
  assert (Htext : slice bytes 20 (len text) = text)
    by exact (slice_of_skipn _ _ _ _ Hskip).
  assert (Hrest : skipn (Z.to_nat (20 + len text)) bytes = encodeChunks cs ++ tail)
    by exact (@skipn_skipn_Z _ _ _ 20 ltac:(lia) Hskip).
  assert (Hcases : (cs = [] /\ len tail < 8) \/ (cs <> [] \/ 8 <= len tail)).
  { destruct cs as [|c' cs'']; [|right; left; congruence].
    destruct (Z_lt_ge_dec (len tail) 8); [left; auto | right; right; lia]. }
  destruct Hcases as [[Hnil Hlt]|Hhead].
  - rewrite Hnil in Hl. change (len (encodeChunks [])) with 0 in Hl.
    rewrite loadAsync_beyond by lia. reflexivity.
  - assert (Hin : 20 + (len text + 8) <= len bytes).
    { destruct Hhead as [Hne|H8]; [|lia].
      pose proof (len_encodeChunks_nonempty Hne). lia. }
    destruct (@loadAsync_inside bytes (len text + 8) 20 20 [(0, 20)]
                ltac:(lia) Hin) as (k' & q' & Hload & Hk1 & Hk2).
    rewrite Hload. cbv beta iota.
    rewrite read_and_parse by lia.
    rewrite Htext, Hparse.
    apply (@readAsync_incomplete Object bytes tail Hsize Htail cs);
      try assumption; lia.
Qed.

Lemma incomplete_chunk_rejected_witness :
  fst (unpack parseAny 2
         (arrayBufferSource
            (chunkedThen exampleText [exampleOther]
                         (le32 100 ++ le32 ChunkFormat.BIN ++ [x01; x02]))))
  = Rejected SourceReadError.
Proof.
  apply (@incomplete_chunk_rejected string parseAny exampleText [exampleOther]
           (le32 100 ++ le32 ChunkFormat.BIN ++ [x01; x02]) "{}"%string 2%nat).
  - vm_compute. reflexivity.
  - reflexivity.
  - repeat constructor; vm_compute; congruence.
  - reflexivity.
  - unfold incompleteChunk. split; [vm_compute; reflexivity|].
    right. split; vm_compute; congruence.
  - simpl. lia.
Defined.

(** ** Direct loading *)

Lemma prefix_iff (s1 : string) :
  forall s2, String.prefix s1 s2 = true <-> exists c, s2 = (s1 ++ c)%string.
Proof.
  induction s1 as [|a s1 IH]; intros s2.
  - split; [intros _; exists s2; reflexivity|].
    intros _. destruct s2; reflexivity.
  - destruct s2 as [|x s2].
    + split; [discriminate | intros [c H]; discriminate].
    + rewrite String.prefix_correct. cbn [String.length String.substring].
      split.
      * intros H. injection H as Hx Hs.
        apply String.prefix_correct, IH in Hs. destruct Hs as [c E].
        exists c. rewrite Hx, E. reflexivity.
      * intros [c H]. injection H as Hx Hs. rewrite Hx. f_equal.
        apply String.prefix_correct, IH. exists c. exact Hs.
Qed.

(** [indexOf] finds the text exactly when it occurs. *)
Lemma indexOf_found_iff (sub : string) :
  forall s,
    (indexOf s sub =? -1) = false <-> exists a c, s = (a ++ sub ++ c)%string.
Proof.
  assert (H : forall s, String.index 0 sub s <> None
                        <-> exists a c, s = (a ++ sub ++ c)%string).
  { induction s as [|x s IH].
    - cbn [String.index]. destruct sub as [|y sub].
      + split; [intros _; exists EmptyString, EmptyString; reflexivity | discriminate].
      + split; [congruence|]. intros (a & c & E).
        destruct a; discriminate.
    - cbn [String.index].
      destruct (String.prefix sub (String x s)) eqn:Ep.
      + split; [|discriminate]. intros _.
        apply prefix_iff in Ep. destruct Ep as [c E].
        exists EmptyString, c. exact E.
      + split.
        * intros Hi.
          assert (Hs : String.index 0 sub s <> None)
            by (destruct (String.index 0 sub s); congruence).
          apply IH in Hs. destruct Hs as (a & c & E).
          exists (String x a), c. rewrite E. reflexivity.
        * intros (a & c & E). destruct a as [|y a].
          { assert (Hp : String.prefix sub (String x s) = true)
              by (apply prefix_iff; exists c; exact E).
            congruence. }
          inversion E; subst.
          assert (Hs : String.index 0 sub (a ++ sub ++ c) <> None)
            by (apply IH; exists a, c; reflexivity).
          destruct (String.index 0 sub (a ++ sub ++ c)); congruence. }
  intros s. rewrite <- H. unfold indexOf.
  destruct (String.index 0 sub s) as [n|].
  - split; [discriminate|]. intros _. apply Z.eqb_neq. lia.
  - split; [discriminate | congruence].
Qed.

(** X16.  [canDirectLoad] accepts a text exactly when the words "asset"
    and "version" both occur in it, anywhere and in any order; nothing
    else about the text is looked at. *)
Theorem canDirectLoad_iff (data : string) :
  canDirectLoad data = true <->
  (exists a c, data = (a ++ "asset" ++ c)%string) /\
  (exists a c, data = (a ++ "version" ++ c)%string).
Proof.
  unfold canDirectLoad.
  rewrite andb_true_iff, !negb_true_iff, !indexOf_found_iff. reflexivity.
Qed.

Lemma canDirectLoad_iff_witness :
  canDirectLoad "version of the asset" = true.
Proof.
  apply (proj2 (canDirectLoad_iff "version of the asset")).
  split.
  - exists "version of the "%string, ""%string. reflexivity.
  - exists ""%string, " of the asset"%string. reflexivity.
Defined.

(** ** Reading through the view *)

(** X17.  The view returned as [bin] is not clamped to its [byteLength]:
    in a chunked container whose last BIN chunk is followed by other
    chunks, a read through the view that starts at its [byteLength]
    resolves with the bytes of the chunks that follow the payload. *)
Theorem bin_view_reads_past_its_length (Object : Type)
    (JSON_parse : string -> option Object)
    (b : IDataBuffer) (text : list byte) (pre post : list chunk) (c : chunk)
    (parsed : Object) (fuel : nat) :
  let cs := pre ++ c :: post in
  serves b (chunked text cs) ->
  len (chunked text cs) < 2 ^ 32 ->
  JSON_parse (string_of_list_byte text) = Some parsed ->
  formatsInRange cs ->
  noJSON cs = true ->
  isBIN c = true -> noBIN post = true ->
  (List.length cs <= fuel)%nat ->
  exists view,
    fst (unpack JSON_parse fuel b) = Resolved {| json := parsed; bin := Some view |} /\
    byteLength view = len (payload c) /\
    forall n, 0 <= n <= len (encodeChunks post) ->
      readAsync view (byteLength view) n = Some (slice (encodeChunks post) 0 n).
Proof.
  intros cs Hserves Hsize Hparse Hfmt HnoJSON Hc Hpost Hfuel.
  set (binStart := 20 + len text + len (encodeChunks pre) + 8).
  assert (Hlast : lastBIN (20 + len text) cs = Some (binStart, payload c)).
  { unfold cs, binStart. apply lastBIN_found; assumption. }
  pose proof (@unpack_chunked_resolved Object JSON_parse b text cs parsed
                Hserves Hsize Hparse Hfmt HnoJSON fuel Hfuel) as Hrun.
  rewrite Hlast in Hrun.
  exists (binView b binStart (len (payload c))).
  split; [exact Hrun|]. split; [reflexivity|].
  intros n Hn. cbn [readAsync binView byteLength].
  pose proof (len_nonneg text) as Ht.
  pose proof (len_nonneg (encodeChunks pre)) as Hpre.
  pose proof (len_nonneg (payload c)) as HL.
  pose proof (chunked_rest text cs) as Hskip.
  unfold cs in Hskip at 2. rewrite encodeChunks_app in Hskip.
  change (encodeChunks (c :: post)) with (encodeChunk c ++ encodeChunks post) in Hskip.
  unfold encodeChunk in Hskip. rewrite <- !app_assoc in Hskip.
  assert (H0 : 0 <= 20 + len text) by lia.
  pose proof (@skipn_skipn_Z _ _ _ _ H0 Hskip) as Hskip1.
  assert (H1 : 0 <= 20 + len text + len (encodeChunks pre)) by lia.
  pose proof (@skipn_skipn_Z _ _ _ _ H1 Hskip1) as Hskip2.
  rewrite len_le32 in Hskip2.
  assert (H2 : 0 <= 20 + len text + len (encodeChunks pre) + 4) by lia.
  pose proof (@skipn_skipn_Z _ _ _ _ H2 Hskip2) as Hskip3.
  rewrite len_le32 in Hskip3.
  assert (H3 : 0 <= 20 + len text + len (encodeChunks pre) + 4 + 4) by lia.
  pose proof (@skipn_skipn_Z _ _ _ _ H3 Hskip3) as Hskip4.
  replace (20 + len text + len (encodeChunks pre) + 4 + 4 + len (payload c))
    with (binStart + len (payload c)) in Hskip4 by (unfold binStart; lia).
  assert (Hlen : len (chunked text cs)
                 = binStart + len (payload c) + len (encodeChunks post)).
  { rewrite len_chunked. unfold cs. rewrite encodeChunks_app.
    change (encodeChunks (c :: post)) with (encodeChunk c ++ encodeChunks post).
    rewrite !len_app, len_encodeChunk. unfold binStart. lia. }
  destruct Hserves as [_ Hread].
  rewrite Hread by (unfold binStart in *; lia).
  unfold slice. rewrite Hskip4. reflexivity.
Qed.

Lemma bin_view_reads_past_its_length_witness :
  exists view,
    fst (unpack parseAny 2
           (arrayBufferSource (chunked exampleText [exampleBIN; exampleOther])))
    = Resolved {| json := "{}"%string; bin := Some view |} /\
    byteLength view = 3 /\
    forall n, 0 <= n <= 9 ->
      readAsync view (byteLength view) n
      = Some (slice (encodeChunks [exampleOther]) 0 n).
Proof.
  apply (@bin_view_reads_past_its_length string parseAny
           (arrayBufferSource (chunked exampleText [exampleBIN; exampleOther]))
           exampleText [] [exampleOther] exampleBIN "{}"%string 2%nat).
  - apply arrayBufferSource_serves.
  - vm_compute. reflexivity.
  - reflexivity.
  - repeat constructor; vm_compute; congruence.
  - reflexivity.
  - reflexivity.
  - reflexivity.
  - simpl. lia.
Defined.

(** ** Parsed versions *)

(** X18.  The numbers of a parsed version are never negative: the
    pattern takes digits only, so a text with a sign in front is not a
    version. *)
Theorem parseVersion_never_negative (version : string) (v : Version.t) :
  Version._parseVersion version = Some v ->
  0 <= Version.major v /\ 0 <= Version.minor v.
Proof. apply parseVersion_nonneg. Qed.

Lemma parseVersion_never_negative_witness :
  0 <= Version.major {| Version.major := 2; Version.minor := 0 |} /\
  0 <= Version.minor {| Version.major := 2; Version.minor := 0 |}.
Proof.
  apply (@parseVersion_never_negative "2.0-rc1"
           {| Version.major := 2; Version.minor := 0 |}).
  reflexivity.
Defined.
